(** * DouPinPin: the bead-pattern generator

    A shallow embedding of [PerlerBeadGenerator.generate] (core/generator.ts)
    and of the legend statistics of [drawPattern] (core/draw_utils.ts).

    JavaScript has a single numeric type, the IEEE-754 double.  The
    arithmetic the generator uses is collected in the interface [JSNumber];
    every function of the source is translated once, over that interface, and
    read at two instances:

    - [IEEE.double]: Rocq's primitive binary64 floats, the arithmetic the
      program really runs on; used to evaluate the code on concrete inputs;
    - [Exact.rational]: canonical rationals [Qc], the arithmetic in which the
      design document states its formulas; used for the algebraic laws.

    Loop counters, pixel indices and canvas sizes are integers in the source
    (results of [Math.floor], [length], [++]) and are kept in [Z]. *)

From Stdlib Require Import String Ascii.
From Stdlib Require Import ZArith QArith Qcanon Qround Qabs Qminmax.
From Stdlib Require Import List Bool Lia Lqa Permutation Sorted.
From Stdlib Require Import Floats.
Import ListNotations.

Set Implicit Arguments.

(** ** The numeric interface *)

Class JSNumber (T : Type) : Type := {
  of_Z   : Z -> T;            (* an integer-valued number *)
  add    : T -> T -> T;       (* a + b *)
  sub    : T -> T -> T;       (* a - b *)
  mul    : T -> T -> T;       (* a * b *)
  div    : T -> T -> T;       (* a / b *)
  ltb    : T -> T -> bool;    (* a < b *)
  floorZ : T -> Z;            (* Math.floor(a), as the integer it denotes *)
  absn   : T -> T;            (* Math.abs(a) *)
  minn   : T -> T -> T;       (* Math.min(a, b) *)
  maxn   : T -> T -> T        (* Math.max(a, b) *)
}.

Module Exact.

Definition Qcltb (a b : Qc) : bool :=
  match Qccompare a b with Lt => true | _ => false end.

Definition Qcabs' (a : Qc) : Qc := if Qcltb a 0 then Qcopp a else a.
Definition Qcmin' (a b : Qc) : Qc := if Qcltb b a then b else a.
Definition Qcmax' (a b : Qc) : Qc := if Qcltb a b then b else a.

#[global] Instance rational : JSNumber Qc := {
  of_Z z := Q2Qc (inject_Z z);
  add := Qcplus;
  sub := Qcminus;
  mul := Qcmult;
  div := Qcdiv;
  ltb := Qcltb;
  floorZ q := Qfloor (this q);
  absn := Qcabs';
  minn := Qcmin';
  maxn := Qcmax'
}.

End Exact.

Module IEEE.

(** [Number(z)] for an integer [z]; exact when [|z| < 2^53]. *)
Definition float_of_Z (z : Z) : float :=
  match z with
  | Z0 => PrimFloat.zero
  | Zpos _ => PrimFloat.of_uint63 (Uint63.of_Z z)
  | Zneg _ => PrimFloat.opp (PrimFloat.of_uint63 (Uint63.of_Z (Z.opp z)))
  end.

(** [Math.floor] of a finite double, as an integer: the double is
    [(-1)^s * m * 2^e].  Not-a-number and the infinities have no floor; the
    generator never floors them when its dimensions are positive. *)
Definition float_floorZ (x : float) : Z :=
  match Prim2SF x with
  | S754_finite s m e => Z.shiftl (if s then Zneg m else Zpos m) e
  | _ => 0%Z
  end.

Definition float_min (a b : float) : float :=
  if (PrimFloat.is_nan a || PrimFloat.is_nan b)%bool then PrimFloat.nan
  else if PrimFloat.ltb b a then b else a.

Definition float_max (a b : float) : float :=
  if (PrimFloat.is_nan a || PrimFloat.is_nan b)%bool then PrimFloat.nan
  else if PrimFloat.ltb a b then b else a.

#[global] Instance double : JSNumber float := {
  of_Z := float_of_Z;
  add := PrimFloat.add;
  sub := PrimFloat.sub;
  mul := PrimFloat.mul;
  div := PrimFloat.div;
  ltb := PrimFloat.ltb;
  floorZ := float_floorZ;
  absn := PrimFloat.abs;
  minn := float_min;
  maxn := float_max
}.

End IEEE.

(** ** 1. Centre crop (generator.ts, lines 15-32) *)

Record CropRect (T : Type) : Type := mkCrop {
  cropX : T; cropY : T; cropW : T; cropH : T
}.

Section Geometry.
Context {T : Type} {N : JSNumber T}.

Definition targetRatio (targetW targetH : Z) : T :=
  div (of_Z targetW) (of_Z targetH).

Definition imgRatio (imgW imgH : Z) : T :=
  div (of_Z imgW) (of_Z imgH).

Definition crop (imgW imgH targetW targetH : Z) : CropRect T :=
  if ltb (targetRatio targetW targetH) (imgRatio imgW imgH) then
    (* image is wider: crop the width *)
    let cw := mul (of_Z imgH) (targetRatio targetW targetH) in
    mkCrop (div (sub (of_Z imgW) cw) (of_Z 2)) (of_Z 0) cw (of_Z imgH)
  else
    (* image is taller: crop the height *)
    let ch := div (of_Z imgW) (targetRatio targetW targetH) in
    mkCrop (of_Z 0) (div (sub (of_Z imgH) ch) (of_Z 2)) (of_Z imgW) ch.

(** The design document's [round(x, 4)], as a number of ten-thousandths:
    [floor (x * 10000 + 1/2)]. *)
Definition round4 (x : T) : Z :=
  floorZ (add (mul x (of_Z 10000)) (div (of_Z 1) (of_Z 2))).

End Geometry.


(** ** 2. Sampling (generator.ts, lines 34-102) *)

Record RawColor (T : Type) : Type := mkRaw { colR : T; colG : T; colB : T }.

(** The running sums of one block: [sumR], [sumG], [sumB], [count]. *)
Record BlockAcc (T : Type) : Type := mkAcc {
  sumR : T; sumG : T; sumB : T; count : Z
}.

(** [lo, lo+1, ..., hi-1]: the values a [for (let i = lo; i < hi; i++)] loop
    takes. *)
Definition zrange (lo hi : Z) : list Z :=
  map (fun i => (lo + Z.of_nat i)%Z) (seq 0 (Z.to_nat (hi - lo))).

Definition for_range {A : Type} (lo hi : Z) (body : A -> Z -> A) (init : A) : A :=
  fold_left body (zrange lo hi) init.

Section Sampler.
Context {T : Type} {N : JSNumber T}.

Definition bOffset (brightness : T) : T := mul brightness (of_Z 15).

(** [Math.min(255, Math.max(0, v))] *)
Definition clamp255 (v : T) : T := minn (of_Z 255) (maxn (of_Z 0) v).

(** [data[idx]] of a [Uint8ClampedArray] read back from a canvas.  For
    positive sizes every index the average sampler reads is inside the
    [4 * cw * ch] buffer (lemma [block_index_in_range]), so the default is
    not what it gets. *)
Definition dataAt (data : list Z) (idx : Z) : T :=
  of_Z (nth (Z.to_nat idx) data 0%Z).

Definition zeroColor : RawColor T := mkRaw (of_Z 0) (of_Z 0) (of_Z 0).

(** *** nearest (lines 47-62): the value handed to [findClosestColor] *)
Definition nearest_cell (imageData : list Z) (targetW : Z) (bOff : T)
           (r c : Z) : RawColor T :=
  let idx := ((r * targetW + c) * 4)%Z in
  mkRaw (clamp255 (add (dataAt imageData idx) bOff))
        (clamp255 (add (dataAt imageData (idx + 1)) bOff))
        (clamp255 (add (dataAt imageData (idx + 2)) bOff)).

Definition nearestGrid (imageData : list Z) (targetW targetH : Z) (bOff : T)
  : list (list (RawColor T)) :=
  map (fun r => map (fun c => nearest_cell imageData targetW bOff r c)
                    (zrange 0 targetW))
      (zrange 0 targetH).

(** *** average (lines 65-102) *)
Definition blockW (cw targetW : Z) : T := div (of_Z cw) (of_Z targetW).
Definition blockH (ch targetH : Z) : T := div (of_Z ch) (of_Z targetH).

Definition startY (ch targetH r : Z) : Z :=
  floorZ (mul (of_Z r) (blockH ch targetH)).
Definition endY (ch targetH r : Z) : Z :=
  Z.min (floorZ (mul (of_Z (r + 1)) (blockH ch targetH))) ch.
Definition startX (cw targetW c : Z) : Z :=
  floorZ (mul (of_Z c) (blockW cw targetW)).
Definition endX (cw targetW c : Z) : Z :=
  Z.min (floorZ (mul (of_Z (c + 1)) (blockW cw targetW))) cw.

(** The body of the innermost loop (lines 90-94). *)
Definition add_pixel (cw : Z) (origData : list Z) (bOff : T)
           (y : Z) (acc : BlockAcc T) (x : Z) : BlockAcc T :=
  let idx := ((y * cw + x) * 4)%Z in
  mkAcc (add (sumR acc) (clamp255 (add (dataAt origData idx) bOff)))
        (add (sumG acc) (clamp255 (add (dataAt origData (idx + 1)) bOff)))
        (add (sumB acc) (clamp255 (add (dataAt origData (idx + 2)) bOff)))
        (count acc + 1).

(** Lines 82-96: the two nested loops over the block of cell [(r, c)]. *)
Definition block_sums (cw ch targetW targetH : Z) (origData : list Z)
           (bOff : T) (r c : Z) : BlockAcc T :=
  for_range (startY ch targetH r) (endY ch targetH r)
    (fun acc y =>
       for_range (startX cw targetW c) (endX cw targetW c)
         (add_pixel cw origData bOff y) acc)
    (mkAcc (of_Z 0) (of_Z 0) (of_Z 0) 0).

(** Line 98: [if (count === 0) count = 1]. *)
Definition divisor (count : Z) : Z := if (count =? 0)%Z then 1%Z else count.

(** Line 99: the raw colour of cell [(r, c)]. *)
Definition average_cell (cw ch targetW targetH : Z) (origData : list Z)
           (bOff : T) (r c : Z) : RawColor T :=
  let acc := block_sums cw ch targetW targetH origData bOff r c in
  let count := divisor (count acc) in
  mkRaw (div (sumR acc) (of_Z count))
        (div (sumG acc) (of_Z count))
        (div (sumB acc) (of_Z count)).

Definition rawGrid (cw ch targetW targetH : Z) (origData : list Z) (bOff : T)
  : list (list (RawColor T)) :=
  map (fun r => map (fun c => average_cell cw ch targetW targetH origData bOff r c)
                    (zrange 0 targetW))
      (zrange 0 targetH).

(** *** The design document's reading of a block *)

(** The source pixels [(y, x)] of the block of cell [(r, c)], row by row. *)
Definition block_pixels (cw ch targetW targetH r c : Z) : list (Z * Z) :=
  list_prod (zrange (startY ch targetH r) (endY ch targetH r))
            (zrange (startX cw targetW c) (endX cw targetW c)).

(** Channel [k] (0, 1, 2) of source pixel [(y, x)], brightened and clamped. *)
Definition sampled (cw : Z) (origData : list Z) (bOff : T) (k : Z)
           (p : Z * Z) : T :=
  clamp255 (add (dataAt origData ((fst p * cw + snd p) * 4 + k)) bOff).

Definition sum_list (l : list T) : T := fold_left add l (of_Z 0).

(** The mean of channel [k] over a list of pixels: their sum over their
    number. *)
Definition mean_over (cw : Z) (origData : list Z) (bOff : T) (k : Z)
           (ps : list (Z * Z)) : T :=
  div (sum_list (map (sampled cw origData bOff k) ps))
      (of_Z (Z.of_nat (length ps))).

End Sampler.

(** ** 3. Gradient enhancement (generator.ts, lines 104-169) *)

Section Enhancer.
Context {T : Type} {N : JSNumber T}.

Definition Grid : Type := list (list (RawColor T)).

(** [rawGrid[r][c]]; the loops and the bounds test keep [(r, c)] inside the
    grid, so the default is never returned on a [targetH x targetW] grid. *)
Definition cellAt (grid : Grid) (r c : Z) : RawColor T :=
  nth (Z.to_nat c) (nth (Z.to_nat r) grid []) zeroColor.

Definition dirs : list (Z * Z) := [(-1, 0); (1, 0); (0, -1); (0, 1)]%Z.

(** [nr >= 0 && nr < targetH && nc >= 0 && nc < targetW] *)
Definition inside (targetH targetW nr nc : Z) : bool :=
  ((0 <=? nr) && (nr <? targetH) && (0 <=? nc) && (nc <? targetW))%Z.

(** [|center.r - neighbor.r| + |center.g - neighbor.g| + |center.b - neighbor.b|] *)
Definition l1_dist (center neighbor : RawColor T) : T :=
  add (add (absn (sub (colR center) (colR neighbor)))
           (absn (sub (colG center) (colG neighbor))))
      (absn (sub (colB center) (colB neighbor))).

(** Lines 112-125: [(diffSum, neighbors)] after the loop over [dirs]. *)
Definition gradient_loop (raw : Grid) (targetH targetW r c : Z) : T * Z :=
  fold_left
    (fun (st : T * Z) (d : Z * Z) =>
       let nr := (r + fst d)%Z in
       let nc := (c + snd d)%Z in
       if inside targetH targetW nr nc
       then (add (fst st) (l1_dist (cellAt raw r c) (cellAt raw nr nc)),
             (snd st + 1)%Z)
       else st)
    dirs (of_Z 0, 0%Z).

(** Line 127. *)
Definition avgDiff (raw : Grid) (targetH targetW r c : Z) : T :=
  let st := gradient_loop raw targetH targetW r c in
  if (0 <? snd st)%Z then div (fst st) (of_Z (snd st)) else of_Z 0.

Definition weightCenter : T := div (of_Z 22) (of_Z 10).    (* 2.2 *)
Definition weightEdge : T := div (of_Z (-3)) (of_Z 10).    (* -0.3 *)

(** Lines 140-153: the weighted sums and [validNeighbors] after the loop. *)
Definition kernel_loop (raw : Grid) (targetH targetW r c : Z)
  : RawColor T * Z :=
  let center := cellAt raw r c in
  fold_left
    (fun (st : RawColor T * Z) (d : Z * Z) =>
       let nr := (r + fst d)%Z in
       let nc := (c + snd d)%Z in
       if inside targetH targetW nr nc
       then (mkRaw (add (colR (fst st)) (mul (colR (cellAt raw nr nc)) weightEdge))
                   (add (colG (fst st)) (mul (colG (cellAt raw nr nc)) weightEdge))
                   (add (colB (fst st)) (mul (colB (cellAt raw nr nc)) weightEdge)),
             (snd st + 1)%Z)
       else st)
    dirs
    (mkRaw (mul (colR center) weightCenter)
           (mul (colG center) weightCenter)
           (mul (colB center) weightCenter), 0%Z).

(** Lines 155-165: compensation for the missing edges, then the clamp. *)
Definition sharpen (raw : Grid) (targetH targetW r c : Z) : RawColor T :=
  let center := cellAt raw r c in
  let st := kernel_loop raw targetH targetW r c in
  let missingEdges := (4 - snd st)%Z in
  let comp := mul (of_Z missingEdges) weightEdge in
  mkRaw (clamp255 (add (colR (fst st)) (mul (colR center) comp)))
        (clamp255 (add (colG (fst st)) (mul (colG center) comp)))
        (clamp255 (add (colB (fst st)) (mul (colB center) comp))).

(** Lines 109-166: the colour pushed for cell [(r, c)]. *)
Definition enhance_cell (raw : Grid) (targetH targetW r c : Z) : RawColor T :=
  if ltb (avgDiff raw targetH targetW r c) (of_Z 15)
  then cellAt raw r c                       (* { ...center } *)
  else sharpen raw targetH targetW r c.

Definition enhancedGrid (raw : Grid) (targetH targetW : Z) : Grid :=
  map (fun r => map (fun c => enhance_cell raw targetH targetW r c)
                    (zrange 0 targetW))
      (zrange 0 targetH).

(** *** The same loops over a store of colour objects

    In the source a grid cell is a reference to an object [{r, g, b}].  A
    heap is the list of the objects allocated so far, an address is an index
    into it, and a grid of the program is a grid of addresses. *)
Definition Heap : Type := list (RawColor T).
Definition RefGrid : Type := list (list nat).

Definition deref (h : Heap) (a : nat) : RawColor T := nth a h zeroColor.
Definition derefGrid (h : Heap) (g : RefGrid) : Grid := map (map (deref h)) g.

(** A new object literal: stored after every existing object. *)
Definition alloc (h : Heap) (v : RawColor T) : Heap * nat :=
  (h ++ [v], length h).

(** One iteration of the inner loop (lines 108-167): read the raw grid in
    the current heap, allocate the result, push its address on [row]. *)
Definition enhance_step (rawRef : RefGrid) (targetH targetW r : Z)
           (st : Heap * list nat) (c : Z) : Heap * list nat :=
  let v := enhance_cell (derefGrid (fst st) rawRef) targetH targetW r c in
  let (h', a) := alloc (fst st) v in
  (h', snd st ++ [a]).

(** One iteration of the outer loop (lines 106-169). *)
Definition enhance_row_step (rawRef : RefGrid) (targetH targetW : Z)
           (st : Heap * RefGrid) (r : Z) : Heap * RefGrid :=
  let (h', row) :=
    for_range 0 targetW (enhance_step rawRef targetH targetW r) (fst st, []) in
  (h', snd st ++ [row]).

Definition enhance_heap (h : Heap) (rawRef : RefGrid) (targetH targetW : Z)
  : Heap * RefGrid :=
  for_range 0 targetH (enhance_row_step rawRef targetH targetW) (h, []).

(** *** The design document's reading of the kernel *)

(** The in-grid neighbours of [(r, c)], in the order of [dirs]. *)
Definition neighbors (targetH targetW r c : Z) : list (Z * Z) :=
  filter (fun p => inside targetH targetW (fst p) (snd p))
         (map (fun d => (r + fst d, c + snd d)%Z) dirs).

(** Mean L1 distance of the centre to its existing neighbours, 0 when there
    is none. *)
Definition mean_l1 (raw : Grid) (targetH targetW r c : Z) : T :=
  let ns := neighbors targetH targetW r c in
  match ns with
  | [] => of_Z 0
  | _ => div (sum_list (map (fun p => l1_dist (cellAt raw r c)
                                            (cellAt raw (fst p) (snd p))) ns))
             (of_Z (Z.of_nat (length ns)))
  end.

End Enhancer.

(** ** 4. The pipeline up to palette resolution (generator.ts, lines 7-189) *)

Inductive Algorithm : Type := average | nearest | gradient_enhanced.

(** The source image as the generator uses it: its [width] and [height], and
    what the browser's canvas returns for it.  [drawImage img rect dw dh] is
    the RGBA buffer read by [getImageData(0, 0, dw, dh)] after
    [ctx.drawImage(img, rect.x, rect.y, rect.w, rect.h, 0, 0, dw, dh)] on a
    fresh [dw x dh] canvas. *)
Record ImageSource (T : Type) : Type := mkImage {
  width : Z;
  height : Z;
  drawImage : CropRect T -> Z -> Z -> list Z
}.

Section Pipeline.
Context {T : Type} {N : JSNumber T}.

(** The grid of colours handed, cell by cell, to [findClosestColor]. *)
Definition generate_cells (imageSource : ImageSource T) (targetW targetH : Z)
           (algorithm : Algorithm) (brightness : T) : Grid :=
  let rect := crop (width imageSource) (height imageSource) targetW targetH in
  let bOff := bOffset brightness in
  match algorithm with
  | nearest =>
      let imageData := drawImage imageSource rect targetW targetH in
      nearestGrid imageData targetW targetH bOff
  | _ =>
      let cw := floorZ (cropW rect) in
      let ch := floorZ (cropH rect) in
      let origData := drawImage imageSource rect cw ch in
      let raw := rawGrid cw ch targetW targetH origData bOff in
      match algorithm with
      | gradient_enhanced => enhancedGrid raw targetH targetW
      | _ => raw
      end
  end.

(** A source image whose canvas read-back is [data] whatever is asked: the
    case of a crop that is the whole image drawn at its own size. *)
Definition bitmap (w h : Z) (data : list Z) : ImageSource T :=
  mkImage w h (fun _ _ _ => data).

End Pipeline.

(** ** 5. Legend statistics (draw_utils.ts, lines 13-27) *)

Module DrawUtils.

(** Modelled from the spec: the [ColorInfo] of core/color_utils.ts, a
    PaletteEntry: a short code plus the display RGB triple. *)
Record ColorInfo : Type := mkColor { code : string; rgb : Z * Z * Z }.

Record Stat : Type := mkStat { color : ColorInfo; count : nat }.

(** [Map<string, Stat>]: the entries in insertion order. *)
Definition StatsMap : Type := list (string * Stat).

Fixpoint has (m : StatsMap) (k : string) : bool :=
  match m with
  | [] => false
  | (k', _) :: m' => if String.eqb k' k then true else has m' k
  end.

Fixpoint get (m : StatsMap) (k : string) : option Stat :=
  match m with
  | [] => None
  | (k', v) :: m' => if String.eqb k' k then Some v else get m' k
  end.

(** [Map.prototype.set]: an existing key keeps its place, a new one goes
    last. *)
Fixpoint set (m : StatsMap) (k : string) (v : Stat) : StatsMap :=
  match m with
  | [] => [(k, v)]
  | (k', v') :: m' =>
      if String.eqb k' k then (k, v) :: m' else (k', v') :: set m' k v
  end.

Definition values (m : StatsMap) : list Stat := map snd m.

(** Lines 20-24, for one cell.  [count++] writes the entry that [get]
    returned; [None] is the TypeError of [undefined.count]. *)
Definition scan_cell (m : StatsMap) (cell : ColorInfo) : option StatsMap :=
  let m1 := if negb (has m (code cell))
            then set m (code cell) (mkStat cell 0)
            else m in
  match get m1 (code cell) with
  | Some s => Some (set m1 (code cell) (mkStat (color s) (S (count s))))
  | None => None
  end.

(** Lines 13-26.  [None] is a TypeError: [grid[0].length] on an empty grid,
    or [cell.code] on a cell that a short row does not have. *)
Definition scan_grid (grid : list (list ColorInfo)) : option StatsMap :=
  match grid with
  | [] => None
  | row0 :: _ =>
      let rows := List.length grid in
      let cols := List.length row0 in
      fold_left
        (fun om r =>
           fold_left
             (fun om c =>
                match om with
                | None => None
                | Some m =>
                    match nth_error (nth r grid []) c with
                    | Some cell => scan_cell m cell
                    | None => None
                    end
                end)
             (seq 0 cols) om)
        (seq 0 rows) (Some [])
  end.

(** [Array.prototype.sort(cmp)] is stable (ECMAScript 2019): elements that
    compare equal keep their order, so for a consistent comparator the
    result does not depend on the engine's algorithm.  Modelled by the
    stable insertion sort. *)
Fixpoint insert_sorted {A : Type} (cmp : A -> A -> Z) (x : A) (l : list A)
  : list A :=
  match l with
  | [] => [x]
  | y :: l' =>
      if (cmp x y <=? 0)%Z then x :: l else y :: insert_sorted cmp x l'
  end.

Definition js_sort {A : Type} (cmp : A -> A -> Z) (l : list A) : list A :=
  fold_right (insert_sorted cmp) [] l.

(** [(a, b) => b.count - a.count] *)
Definition by_count_desc (a b : Stat) : Z :=
  (Z.of_nat (count b) - Z.of_nat (count a))%Z.

(** Line 27: [stats]. *)
Definition stats (grid : list (list ColorInfo)) : option (list Stat) :=
  match scan_grid grid with
  | Some m => Some (js_sort by_count_desc (values m))
  | None => None
  end.

(** *** Vocabulary of the design document *)

(** The palette codes of the grid in row-major order. *)
Definition codes (grid : list (list ColorInfo)) : list string :=
  map code (concat grid).

(** Every row has as many cells as the first one, and there is a row. *)
Definition rectangular (grid : list (list ColorInfo)) : Prop :=
  grid <> [] /\
  Forall (fun row => List.length row = List.length (hd [] grid)) grid.

(** Position of the first occurrence of [k] in [l] ([length l] if none). *)
Fixpoint first_index (k : string) (l : list string) : nat :=
  match l with
  | [] => 0
  | k' :: l' => if String.eqb k' k then 0 else S (first_index k l')
  end.

Definition occurrences (k : string) (l : list string) : nat :=
  count_occ string_dec l k.

End DrawUtils.

(** Palette resolution and the whole of [generate] up to the drawing:
    [findClosestColor] is the external collaborator. *)
Section Resolve.
Context {T : Type} {N : JSNumber T}.
Variable PaletteKey : Type.
Variable findClosestColor : T -> T -> T -> PaletteKey -> DrawUtils.ColorInfo.

Definition generate_grid (imageSource : ImageSource T) (targetW targetH : Z)
           (algorithm : Algorithm) (paletteKey : PaletteKey) (brightness : T)
  : list (list DrawUtils.ColorInfo) :=
  map (map (fun col => findClosestColor (colR col) (colG col) (colB col)
                                        paletteKey))
      (generate_cells imageSource targetW targetH algorithm brightness).

Definition generate_stats (imageSource : ImageSource T) (targetW targetH : Z)
           (algorithm : Algorithm) (paletteKey : PaletteKey) (brightness : T)
  : option (list DrawUtils.Stat) :=
  DrawUtils.stats (generate_grid imageSource targetW targetH algorithm
                                 paletteKey brightness).
End Resolve.


(** ** 6. Source pixels *)

(** One RGBA pixel of a canvas buffer. *)
Record Pixel : Type := mkPixel { pxR : Z; pxG : Z; pxB : Z; pxA : Z }.

Definition bytes (p : Pixel) : list Z := [pxR p; pxG p; pxB p; pxA p].

(** What a [Uint8ClampedArray] can hold. *)
Definition is_byte (z : Z) : Prop := (0 <= z <= 255)%Z.

Definition rgb_bytes (p : Pixel) : Prop :=
  is_byte (pxR p) /\ is_byte (pxG p) /\ is_byte (pxB p).

Definition colorOf {T : Type} {N : JSNumber T} (p : Pixel) : RawColor T :=
  mkRaw (of_Z (pxR p)) (of_Z (pxG p)) (of_Z (pxB p)).

(** A buffer of [n] copies of one pixel. *)
Definition uniform (p : Pixel) (n : nat) : list Z := concat (repeat (bytes p) n).

Definition solid (r g b : Z) : Pixel := mkPixel r g b 255.
Definition red : Pixel := solid 255 0 0.
Definition green : Pixel := solid 0 255 0.
Definition blue : Pixel := solid 0 0 255.
Definition white : Pixel := solid 255 255 255.
Definition black : Pixel := solid 0 0 0.

(** The value computed for a pixel [v] that is alone in its block, at
    brightness 0: [(0 + clamp (v + 0 * 15)) / 1]. *)
Definition alone {T : Type} {N : JSNumber T} (v : Z) : T :=
  div (add (of_Z 0) (clamp255 (add (of_Z v) (bOffset (of_Z 0))))) (of_Z 1).

(** Every pixel of the [cw x ch] buffer [origData] has the colour of [p]. *)
Definition all_pixels_equal (cw ch : Z) (origData : list Z) (p : Pixel) : Prop :=
  forall y x : Z,
    (0 <= y < ch)%Z -> (0 <= x < cw)%Z ->
    nth (Z.to_nat ((y * cw + x) * 4)) origData 0%Z = pxR p /\
    nth (Z.to_nat ((y * cw + x) * 4 + 1)) origData 0%Z = pxG p /\
    nth (Z.to_nat ((y * cw + x) * 4 + 2)) origData 0%Z = pxB p.

(** [clamp(C + brightness * 15)] on each channel. *)
Definition brightened {T : Type} {N : JSNumber T} (p : Pixel) (brightness : T)
  : RawColor T :=
  mkRaw (clamp255 (add (of_Z (pxR p)) (bOffset brightness)))
        (clamp255 (add (of_Z (pxG p)) (bOffset brightness)))
        (clamp255 (add (of_Z (pxB p)) (bOffset brightness))).

(** The three colour channels of a cell. *)
Inductive Channel : Type := chR | chG | chB.

Definition chan {T : Type} (k : Channel) (col : RawColor T) : T :=
  match k with chR => colR col | chG => colG col | chB => colB col end.

(** The four neighbour positions of the full kernel, a position outside the
    grid being read as the centre itself. *)
Definition padded {T : Type} {N : JSNumber T} (raw : list (list (RawColor T)))
           (targetH targetW r c : Z) : list (RawColor T) :=
  map (fun d => let nr := (r + fst d)%Z in
                let nc := (c + snd d)%Z in
                if inside targetH targetW nr nc
                then cellAt raw nr nc else cellAt raw r c)
      dirs.

(** A 1x2 raw grid with an edge between its two cells: black, then grey. *)
Definition edge_grid {T : Type} {N : JSNumber T} : list (list (RawColor T)) :=
  [[mkRaw (of_Z 0) (of_Z 0) (of_Z 0); mkRaw (of_Z 100) (of_Z 100) (of_Z 100)]].

(** The addresses of the cells of a grid whose objects were allocated one
    after the other, row by row, from address [start] on. *)
Fixpoint number_rows {A : Type} (start : nat) (rows : list (list A))
  : list (list nat) :=
  match rows with
  | [] => []
  | row :: rows' =>
      seq start (List.length row) :: number_rows (start + List.length row) rows'
  end.

(** Channel-wise order on exact colours. *)
Definition color_le (a b : RawColor Qc) : Prop :=
  (colR a <= colR b /\ colG a <= colG b /\ colB a <= colB b)%Qc.

(** A 6x3 source for a 2x1 grid: the left 3x3 block is white with one black
    pixel, the right 3x3 block is grey (200). *)
Definition grey : Pixel := solid 200 200 200.

Definition bright_edge_data : list Z :=
  concat (map bytes
    [white; white; white; grey; grey; grey;
     white; white; white; grey; grey; grey;
     white; white; black; grey; grey; grey]).

Definition bright_edge {T : Type} {N : JSNumber T} : ImageSource T :=
  bitmap 6 3 bright_edge_data.

(** ** 7. Vocabulary for the legend *)

Module Legend.
Import DrawUtils.

(** The palette code of a legend entry. *)
Definition scode (s : Stat) : string := code (color s).

(** [x] comes before [y] in [l]. *)
Definition before {A : Type} (l : list A) (x y : A) : Prop :=
  exists l1 l2 l3, l = l1 ++ x :: l2 ++ y :: l3.

(** What lines 21-24 do to the map for one cell, in one pass: the entry of
    the cell's code is counted once more where it stands, or a new entry
    with count 1 is added last (lemma [scan_cell_bump]). *)
Fixpoint bump (m : StatsMap) (cell : ColorInfo) : StatsMap :=
  match m with
  | [] => [(code cell, mkStat cell 1)]
  | (k, s) :: m' =>
      if String.eqb k (code cell)
      then (k, mkStat (color s) (S (count s))) :: m'
      else (k, s) :: bump m' cell
  end.

(** The loop body of lines 20-24 once a TypeError may have happened. *)
Definition scan_step (om : option StatsMap) (cell : ColorInfo)
  : option StatsMap :=
  match om with
  | None => None
  | Some m => scan_cell m cell
  end.

Definition keys (m : StatsMap) : list string := map fst m.

(** The sum of the entries' counts. *)
Definition total (l : list Stat) : nat := list_sum (map count l).

(** [a] may stand before [b] in a list sorted by descending count. *)
Definition ge_count (a b : Stat) : Prop := (count b <= count a)%nat.

(** What holds of the map after the codes [l] have been scanned. *)
Record tallied (m : StatsMap) (l : list string) : Prop := mkTallied {
  tl_nodup : NoDup (keys m);
  tl_keys : forall k, In k (keys m) <-> In k l;
  tl_entry : Forall (fun e => scode (snd e) = fst e /\
                              count (snd e) = occurrences (fst e) l) m;
  tl_order : forall k1 k2, before (keys m) k1 k2 ->
                           (first_index k1 l < first_index k2 l)%nat;
  tl_total : total (values m) = List.length l
}.

Definition cA : ColorInfo := mkColor "A" (255, 0, 0)%Z.
Definition cB : ColorInfo := mkColor "B" (0, 255, 0)%Z.
Definition cC : ColorInfo := mkColor "C" (0, 0, 255)%Z.

(** Codes A (5 cells), B (3) and C (3), first seen in the order A, C, B. *)
Definition example_grid : list (list ColorInfo) :=
  [[cA; cC; cB; cA; cA; cC; cB; cA; cC; cB; cA]].

(** The same tallies on a 2x3 grid, scanned row by row: B (3), C (2), A (1),
    with A first seen after B and before C. *)
Definition small_grid : list (list ColorInfo) :=
  [[cB; cA; cC]; [cC; cB; cB]].
End Legend.

(** ** 8. The caller: grid size from the form (App.tsx) *)

(** [parseInt(e.target.value) || 1] (App.tsx, lines 192 and 203): [None] is
    the NaN of an input that is not a number; NaN and 0 are falsy. *)
Definition dimension_input (parsed : option Z) : Z :=
  match parsed with
  | None => 1%Z
  | Some 0%Z => 1%Z
  | Some n => n
  end.

(** [Math.min(Math.max(1, width), 120)] (App.tsx, lines 96-97). *)
Definition validate_dimension (width : Z) : Z := Z.min (Z.max 1 width) 120.

(** ** 9. The chart's layout (draw_utils.ts, lines 3-5 and 29-137) *)

Section Layout.
Context {T : Type} {N : JSNumber T}.

(** [0.299 * r + 0.587 * g + 0.114 * b] *)
Definition getLuminance (r g b : T) : T :=
  add (add (mul (div (of_Z 299) (of_Z 1000)) r)
           (mul (div (of_Z 587) (of_Z 1000)) g))
      (mul (div (of_Z 114) (of_Z 1000)) b).

(** The colour of the code written on a cell: ['#111827'] or ['#ffffff']. *)
Inductive TextColor : Type := gray900 | whiteText.

(** Lines 75-76: [lum > 128 ? '#111827' : '#ffffff']. *)
Definition text_color (rgb : Z * Z * Z) : TextColor :=
  let '(r, g, b) := rgb in
  if ltb (of_Z 128) (getLuminance (of_Z r) (of_Z g) (of_Z b))
  then gray900 else whiteText.

(** [Math.ceil(x)], as the integer it denotes: [-floor(-x)]. *)
Definition ceilZ (x : T) : Z := Z.opp (floorZ (sub (of_Z 0) x)).

Variables (cellSize margin : T).
(** [rows], [cols]: the grid's size; [n]: [stats.length]. *)
Variables (rows cols n : Z).

Definition gridWidth : T := mul (of_Z cols) cellSize.
Definition gridHeight : T := mul (of_Z rows) cellSize.

Definition statItemWidth : T := maxn (of_Z 120) (mul cellSize (of_Z 3)).
Definition statItemHeight : T := cellSize.
Definition statSpacingX : T := of_Z 20.
Definition statSpacingY : T := of_Z 20.

Definition maxStatsPerRow : Z :=
  Z.max 1 (floorZ (div gridWidth (add statItemWidth statSpacingX))).
Definition statsRows : Z := ceilZ (div (of_Z n) (of_Z maxStatsPerRow)).
Definition statsSectionHeight : T :=
  mul (of_Z statsRows) (add statItemHeight statSpacingY).

(** The canvas. *)
Definition canvasWidth : T :=
  maxn (add gridWidth (mul margin (of_Z 2)))
       (add statItemWidth (mul margin (of_Z 2))).
Definition canvasHeight : T :=
  add (add (add gridHeight (mul margin (div (of_Z 5) (of_Z 2))))
           statsSectionHeight)
      margin.

Definition offsetX : T := div (sub canvasWidth gridWidth) (of_Z 2).
Definition offsetY : T := margin.

(** Lines 62-63: the top-left corner of cell [(r, c)]. *)
Definition cellLeft (c : Z) : T := add offsetX (mul (of_Z c) cellSize).
Definition cellTop (r : Z) : T := add offsetY (mul (of_Z r) cellSize).

(** Lines 125-137: the legend item of [stats[i]]. *)
Definition statsStartY : T :=
  add (add offsetY gridHeight) (mul margin (div (of_Z 3) (of_Z 2))).
Definition statRow (i : Z) : Z := floorZ (div (of_Z i) (of_Z maxStatsPerRow)).
Definition statCol (i : Z) : Z := (i mod maxStatsPerRow)%Z.
Definition actualStatsWidth : T :=
  sub (mul (of_Z (Z.min n maxStatsPerRow)) (add statItemWidth statSpacingX))
      statSpacingX.
Definition statsOffsetX : T := div (sub canvasWidth actualStatsWidth) (of_Z 2).
Definition statLeft (i : Z) : T :=
  add statsOffsetX (mul (of_Z (statCol i)) (add statItemWidth statSpacingX)).
Definition statTop (i : Z) : T :=
  add statsStartY (mul (of_Z (statRow i)) (add statItemHeight statSpacingY)).

End Layout.

(** Lines 85-89: the values of [c] in [for (let c = 10; c < cols; c += 10)],
    the columns before which a thick line is drawn.  [fuel] bounds the number
    of iterations; [Z.to_nat cols] is enough (lemma [thick_columns_spec]). *)
Fixpoint thick_from (fuel : nat) (c cols : Z) : list Z :=
  match fuel with
  | O => []
  | S fuel' => if (c <? cols)%Z then c :: thick_from fuel' (c + 10) cols else []
  end.

Definition thick_columns (cols : Z) : list Z := thick_from (Z.to_nat cols) 10 cols.

(** Lines 103-105: the label of column [c] and whether it is written bold. *)
Definition label (c : Z) : Z := (c + 1)%Z.
Definition isTen (c : Z) : bool := ((c + 1) mod 10 =? 0)%Z.

(** ** 10. Vocabulary for the further properties *)

(** A colour whose three channels are within [0, 255]. *)
Definition in_gamut (col : RawColor Qc) : Prop :=
  forall k : Channel, (0 <= chan k col /\ chan k col <= of_Z 255)%Qc.

(** The grid of [h] rows of [w] cells that all hold [v]. *)
Definition constant_grid {A : Type} (v : A) (w h : Z) : list (list A) :=
  repeat (repeat v (Z.to_nat w)) (Z.to_nat h).

(** The first cell with code [k], in row-major order. *)
Definition first_cell (k : string) (cells : list DrawUtils.ColorInfo)
  : option DrawUtils.ColorInfo :=
  find (fun cell => String.eqb (DrawUtils.code cell) k) cells.

(** The grid cut to the width of its first row, as the loops of [drawPattern]
    read it. *)
Definition trimmed {A : Type} (grid : list (list A)) : list (list A) :=
  map (firstn (List.length (hd [] grid))) grid.

(** Every entry of the map shows the first cell of its code. *)
Definition shows_first (m : DrawUtils.StatsMap) (cells : list DrawUtils.ColorInfo)
  : Prop :=
  forall k s, In (k, s) m -> first_cell k cells = Some (DrawUtils.color s).

(** [count] when the two loops of cell [(r, c)] end (generator.ts, line 97,
    before the fallback). *)
Definition pixels_counted {T : Type} {N : JSNumber T}
           (cw ch targetW targetH : Z) (origData : list Z) (bOff : T)
           (r c : Z) : Z :=
  count (block_sums cw ch targetW targetH origData bOff r c).

(** * Properties *)

(** ** Exact arithmetic: from [Qc] to [Q] *)

Open Scope Qc_scope.

Lemma Qcltb_lt (a b : Qc) : Exact.Qcltb a b = true <-> a < b.
Proof.
  unfold Exact.Qcltb. rewrite Qclt_alt. destruct (a ?= b); split; congruence.
Qed.

Lemma Qcltb_ge (a b : Qc) : Exact.Qcltb a b = false <-> b <= a.
Proof.
  unfold Exact.Qcltb. rewrite Qcle_alt. unfold Qccompare.
  rewrite <- (Qcompare_antisym (this b) (this a)).
  destruct (Qcompare (this b) (this a)); simpl; split; congruence.
Qed.

Lemma this_of_Z (z : Z) : (this (of_Z z) == inject_Z z)%Q.
Proof. cbn [of_Z Exact.rational this Q2Qc]. apply Qred_correct. Qed.

(** Unfold the canonical operations down to [Q], where [lra] and [field]
    work up to [==]. *)
Ltac qc_q :=
  unfold Qcle, Qclt, Qcdiv, Qcminus, Qcplus, Qcmult, Qcinv, Qcopp in *;
  cbn [this Q2Qc of_Z Exact.rational] in *; rewrite ?Qred_correct in *.

Ltac qc_eq := apply Qc_is_canon; qc_q.

Lemma of_Z_pos (z : Z) : (0 < z)%Z -> 0 < of_Z z.
Proof.
  intros H. qc_q. change (inject_Z 0 < inject_Z z)%Q.
  rewrite <- Zlt_Qlt. exact H.
Qed.

Lemma of_Z_le (a b : Z) : (a <= b)%Z -> of_Z a <= of_Z b.
Proof. intros H. qc_q. rewrite <- Zle_Qle. exact H. Qed.

Lemma Q_wide (x y t : Q) : (0 < y -> t < x / y -> y * t < x)%Q.
Proof.
  intros Hy H.
  assert (E : (x == y * (x / y))%Q) by (field; lra).
  rewrite E. apply Qmult_lt_l; auto.
Qed.

Lemma Q_tall (x y t : Q) : (0 < t -> 0 < y -> ~ t < x / y -> x / t <= y)%Q.
Proof.
  intros Ht Hy H. apply Qnot_lt_le in H.
  apply Qle_shift_div_r; auto.
  assert (E : (x == y * (x / y))%Q) by (field; lra).
  rewrite E. apply Qmult_le_l; auto.
Qed.

(** ** C1 *)




(** ** The sampler's loops *)

Lemma in_zrange (lo hi i : Z) : In i (zrange lo hi) <-> (lo <= i < hi)%Z.
Proof.
  unfold zrange. rewrite in_map_iff. split.
  - intros [k [E H]]. apply in_seq in H. lia.
  - intros H. exists (Z.to_nat (i - lo)). split; [lia |].
    apply in_seq. lia.
Qed.

Lemma zrange_length (lo hi : Z) : List.length (zrange lo hi) = Z.to_nat (hi - lo).
Proof. unfold zrange. rewrite length_map, length_seq. reflexivity. Qed.

Lemma zrange_nth (lo hi : Z) (i : nat) (d : Z) :
  (i < Z.to_nat (hi - lo))%nat -> nth i (zrange lo hi) d = (lo + Z.of_nat i)%Z.
Proof.
  intros H. unfold zrange.
  rewrite (nth_indep _ d (lo + Z.of_nat 0)%Z) by (rewrite length_map, length_seq; exact H).
  rewrite (map_nth (fun i => (lo + Z.of_nat i)%Z)), seq_nth by exact H.
  reflexivity.
Qed.

Lemma zrange_empty (lo hi : Z) : (hi <= lo)%Z -> zrange lo hi = [].
Proof.
  intros H. unfold zrange. replace (Z.to_nat (hi - lo)) with 0%nat by lia.
  reflexivity.
Qed.

Lemma zrange_NoDup (lo hi : Z) : NoDup (zrange lo hi).
Proof.
  unfold zrange. apply Finite.Injective_map_NoDup.
  - intros a b H. lia.
  - apply seq_NoDup.
Qed.

Lemma NoDup_list_prod {A B : Type} (l1 : list A) (l2 : list B) :
  NoDup l1 -> NoDup l2 -> NoDup (list_prod l1 l2).
Proof.
  intros H1 H2. induction H1 as [| a l1 Ha H1 IH]; simpl.
  - constructor.
  - apply NoDup_app.
    + apply Finite.Injective_map_NoDup; [| exact H2].
      intros x y E. congruence.
    + exact IH.
    + intros [a' b] Hin Hin'. apply in_map_iff in Hin.
      destruct Hin as [b' [E _]]. inversion E; subst.
      apply in_prod_iff in Hin'. tauto.
Qed.

Section SamplerLoops.
Context {T : Type} {N : JSNumber T}.
Variables (cw : Z) (origData : list Z) (bOff : T).

Let step (a : BlockAcc T) (p : Z * Z) : BlockAcc T :=
  add_pixel cw origData bOff (fst p) a (snd p).

Lemma fold_row (y : Z) (cols : list Z) (acc : BlockAcc T) :
  fold_left (add_pixel cw origData bOff y) cols acc =
  fold_left step (map (pair y) cols) acc.
Proof.
  revert acc. induction cols as [| x cols IH]; intros acc; simpl.
  - reflexivity.
  - rewrite IH. reflexivity.
Qed.

Lemma fold_rows (rows cols : list Z) (acc : BlockAcc T) :
  fold_left (fun a y => fold_left (add_pixel cw origData bOff y) cols a) rows acc =
  fold_left step (list_prod rows cols) acc.
Proof.
  revert acc. induction rows as [| y rows IH]; intros acc; simpl.
  - reflexivity.
  - rewrite fold_left_app, IH, fold_row. reflexivity.
Qed.

Lemma fold_step_fields (ps : list (Z * Z)) (acc : BlockAcc T) :
  fold_left step ps acc =
  mkAcc (fold_left add (map (sampled cw origData bOff 0) ps) (sumR acc))
        (fold_left add (map (sampled cw origData bOff 1) ps) (sumG acc))
        (fold_left add (map (sampled cw origData bOff 2) ps) (sumB acc))
        (count acc + Z.of_nat (List.length ps)).
Proof.
  revert acc. induction ps as [| p ps IH]; intros acc.
  - simpl. rewrite Z.add_0_r. destruct acc; reflexivity.
  - cbn [fold_left map List.length]. rewrite IH.
    unfold step at 1 2 3 4, add_pixel, sampled. cbn [sumR sumG sumB count].
    rewrite Z.add_0_r. f_equal. lia.
Qed.

(** The nested loops visit exactly the pixels of the block, row by row, and
    [count] ends as their number. *)
Lemma block_sums_spec (ch targetW targetH r c : Z) :
  let ps := block_pixels cw ch targetW targetH r c in
  block_sums cw ch targetW targetH origData bOff r c =
  mkAcc (sum_list (map (sampled cw origData bOff 0) ps))
        (sum_list (map (sampled cw origData bOff 1) ps))
        (sum_list (map (sampled cw origData bOff 2) ps))
        (Z.of_nat (List.length ps)).
Proof.
  intros ps. unfold block_sums, for_range.
  rewrite fold_rows. fold (block_pixels cw ch targetW targetH r c). fold ps.
  rewrite fold_step_fields. reflexivity.
Qed.

Lemma in_block_pixels (ch targetW targetH r c y x : Z) :
  In (y, x) (block_pixels cw ch targetW targetH r c) <->
  (startY ch targetH r <= y < endY ch targetH r)%Z /\
  (startX cw targetW c <= x < endX cw targetW c)%Z.
Proof.
  unfold block_pixels. rewrite in_prod_iff, !in_zrange. reflexivity.
Qed.

Lemma average_cell_mean (ch targetW targetH r c : Z) :
  let ps := block_pixels cw ch targetW targetH r c in
  ps <> [] ->
  average_cell cw ch targetW targetH origData bOff r c =
  mkRaw (mean_over cw origData bOff 0 ps)
        (mean_over cw origData bOff 1 ps)
        (mean_over cw origData bOff 2 ps).
Proof.
  intros ps Hne. unfold average_cell. rewrite block_sums_spec. fold ps.
  cbn [sumR sumG sumB count]. unfold divisor.
  destruct (Z.eqb_spec (Z.of_nat (List.length ps)) 0) as [E | E].
  - destruct ps; [congruence | simpl in E; lia].
  - reflexivity.
Qed.

Lemma average_cell_empty (ch targetW targetH r c : Z) :
  block_pixels cw ch targetW targetH r c = [] ->
  average_cell cw ch targetW targetH origData bOff r c =
  mkRaw (div (of_Z 0) (of_Z 1)) (div (of_Z 0) (of_Z 1)) (div (of_Z 0) (of_Z 1)).
Proof.
  intros E. unfold average_cell. rewrite block_sums_spec, E. reflexivity.
Qed.

End SamplerLoops.

(** ** C2 *)


Lemma clamp255_id_exact (v : Qc) : 0 <= v -> v <= of_Z 255 -> clamp255 v = v.
Proof.
  intros H0 H1. unfold clamp255. cbn [minn maxn Exact.rational].
  unfold Exact.Qcmin', Exact.Qcmax'.
  change (of_Z 0 : Qc) with (0 : Qc).
  destruct (Exact.Qcltb 0 v) eqn:E0.
  - destruct (Exact.Qcltb v (of_Z 255)) eqn:E1; [reflexivity |].
    apply Qcltb_ge in E1. apply Qcle_antisym; assumption.
  - apply Qcltb_ge in E0. assert (v = 0) by (apply Qcle_antisym; assumption).
    subst v. reflexivity.
Qed.

Lemma bOffset_zero_exact : bOffset (of_Z 0 : Qc) = 0.
Proof. apply Qc_is_canon. reflexivity. Qed.

Lemma alone_exact (v : Z) : is_byte v -> alone (N := Exact.rational) v = of_Z v.
Proof.
  intros [H0 H1]. unfold alone. rewrite bOffset_zero_exact.
  cbn [add div Exact.rational]. rewrite Qcplus_0_r.
  rewrite clamp255_id_exact.
  - change (of_Z 0 : Qc) with (0 : Qc). change (of_Z 1 : Qc) with (1 : Qc).
    field. discriminate.
  - change (0 : Qc) with (of_Z 0 : Qc). apply of_Z_le. exact H0.
  - apply of_Z_le. exact H1.
Qed.

Lemma alone_double_all :
  Forall (fun v => alone (N := IEEE.double) v = of_Z v) (zrange 0 256).
Proof.
  unfold zrange. cbn [Z.sub Z.to_nat Pos.to_nat Pos.iter_op Init.Nat.add seq map].
  repeat (apply Forall_cons; [vm_compute; reflexivity |]).
  apply Forall_nil.
Qed.

Lemma alone_double (v : Z) : is_byte v -> alone (N := IEEE.double) v = of_Z v.
Proof.
  intros [H0 H1].
  exact (proj1 (Forall_forall _ _) alone_double_all v
               (proj2 (in_zrange 0 256 v) ltac:(lia))).
Qed.

Section TwoByTwo.
Context {T : Type} {N : JSNumber T}.
Hypothesis crop_full :
  floorZ (cropW (crop 2 2 2 2)) = 2%Z /\ floorZ (cropH (crop 2 2 2 2)) = 2%Z.
Hypothesis one_pixel_blocks :
  block_pixels 2 2 2 2 0 0 = [(0, 0)%Z] /\ block_pixels 2 2 2 2 0 1 = [(0, 1)%Z] /\
  block_pixels 2 2 2 2 1 0 = [(1, 0)%Z] /\ block_pixels 2 2 2 2 1 1 = [(1, 1)%Z].
Hypothesis alone_id : forall v, is_byte v -> alone v = of_Z v.

Lemma two_by_two_cells (p00 p01 p10 p11 : Pixel) :
  rgb_bytes p00 -> rgb_bytes p01 -> rgb_bytes p10 -> rgb_bytes p11 ->
  generate_cells (bitmap 2 2 (bytes p00 ++ bytes p01 ++ bytes p10 ++ bytes p11))
                 2 2 average (of_Z 0) =
  [[colorOf p00; colorOf p01]; [colorOf p10; colorOf p11]].
Proof.
  intros (A1 & A2 & A3) (B1 & B2 & B3) (C1 & C2 & C3) (D1 & D2 & D3).
  destruct crop_full as [Ew Eh].
  destruct one_pixel_blocks as (E00 & E01 & E10 & E11).
  unfold generate_cells. cbn [bitmap width height drawImage].
  rewrite Ew, Eh. unfold rawGrid.
  change (zrange 0 2) with [0%Z; 1%Z]. cbn [map].
  rewrite !average_cell_mean by (rewrite ?E00, ?E01, ?E10, ?E11; discriminate).
  rewrite E00, E01, E10, E11.
  unfold mean_over, sum_list, sampled, dataAt, colorOf.
  lazy beta iota zeta delta
    [map fold_left List.length Z.of_nat fst snd bytes app nth
     Z.mul Z.add Z.to_nat Pos.mul Pos.add Pos.to_nat Pos.iter_op
     Init.Nat.add Nat.add Pos.succ Pos.of_succ_nat].
  fold (alone (pxR p00)). fold (alone (pxG p00)). fold (alone (pxB p00)).
  fold (alone (pxR p01)). fold (alone (pxG p01)). fold (alone (pxB p01)).
  fold (alone (pxR p10)). fold (alone (pxG p10)). fold (alone (pxB p10)).
  fold (alone (pxR p11)). fold (alone (pxG p11)). fold (alone (pxB p11)).
  rewrite !alone_id by assumption. reflexivity.
Qed.
End TwoByTwo.

Lemma two_by_two_exact (p00 p01 p10 p11 : Pixel) :
  rgb_bytes p00 -> rgb_bytes p01 -> rgb_bytes p10 -> rgb_bytes p11 ->
  generate_cells (N := Exact.rational)
                 (bitmap 2 2 (bytes p00 ++ bytes p01 ++ bytes p10 ++ bytes p11))
                 2 2 average (of_Z 0) =
  [[colorOf p00; colorOf p01]; [colorOf p10; colorOf p11]].
Proof.
  apply two_by_two_cells.
  - split; vm_compute; reflexivity.
  - repeat split; vm_compute; reflexivity.
  - exact alone_exact.
Qed.

Lemma two_by_two_double (p00 p01 p10 p11 : Pixel) :
  rgb_bytes p00 -> rgb_bytes p01 -> rgb_bytes p10 -> rgb_bytes p11 ->
  generate_cells (N := IEEE.double)
                 (bitmap 2 2 (bytes p00 ++ bytes p01 ++ bytes p10 ++ bytes p11))
                 2 2 average (of_Z 0) =
  [[colorOf p00; colorOf p01]; [colorOf p10; colorOf p11]].
Proof.
  apply two_by_two_cells.
  - split; vm_compute; reflexivity.
  - repeat split; vm_compute; reflexivity.
  - exact alone_double.
Qed.


(** ** C8 *)

Lemma divisor_pos (n : nat) : (1 <= divisor (Z.of_nat n))%Z.
Proof. unfold divisor. destruct (Z.eqb_spec (Z.of_nat n) 0); lia. Qed.

Lemma zeroColor_exact :
  mkRaw (div (of_Z 0) (of_Z 1)) (div (of_Z 0) (of_Z 1)) (div (of_Z 0) (of_Z 1)) =
  zeroColor (N := Exact.rational).
Proof.
  unfold zeroColor.
  assert (E : div (of_Z 0) (of_Z 1) = (of_Z 0 : Qc))
    by (apply Qc_is_canon; reflexivity).
  rewrite E. reflexivity.
Qed.

(** C8: average sampling never divides by zero.  For every cell the divisor
    is at least 1; [count] is the number of source pixels of the block; an
    empty block is divided by 1 and yields the zero colour (0/1 on each
    channel, in exact arithmetic and in doubles); a non-empty block is divided
    by its number of pixels.  Empty blocks do occur: cell (0, 0) of a 2x2
    grid over a 1x1 crop. *)
Theorem average_divisor_never_zero :
  (forall (T : Type) (N : JSNumber T) (cw ch targetW targetH : Z)
          (origData : list Z) (bOff : T) (r c : Z),
      let ps := block_pixels cw ch targetW targetH r c in
      let acc := block_sums cw ch targetW targetH origData bOff r c in
      count acc = Z.of_nat (List.length ps) /\
      (1 <= divisor (count acc))%Z /\
      average_cell cw ch targetW targetH origData bOff r c =
        mkRaw (div (sumR acc) (of_Z (divisor (count acc))))
              (div (sumG acc) (of_Z (divisor (count acc))))
              (div (sumB acc) (of_Z (divisor (count acc)))) /\
      (ps = [] ->
       divisor (count acc) = 1%Z /\
       average_cell cw ch targetW targetH origData bOff r c =
         mkRaw (div (of_Z 0) (of_Z 1)) (div (of_Z 0) (of_Z 1))
               (div (of_Z 0) (of_Z 1))) /\
      (ps <> [] -> divisor (count acc) = Z.of_nat (List.length ps))) /\
  (forall cw ch targetW targetH origData bOff r c,
      block_pixels (N := Exact.rational) cw ch targetW targetH r c = [] ->
      average_cell (N := Exact.rational) cw ch targetW targetH origData bOff r c =
      zeroColor) /\
  (forall cw ch targetW targetH origData bOff r c,
      block_pixels (N := IEEE.double) cw ch targetW targetH r c = [] ->
      average_cell (N := IEEE.double) cw ch targetW targetH origData bOff r c =
      zeroColor) /\
  block_pixels (N := Exact.rational) 1 1 2 2 0 0 = [] /\
  block_pixels (N := IEEE.double) 1 1 2 2 0 0 = [].
Proof.
  split; [| split; [| split; [| split]]].
  - intros T N cw ch targetW targetH origData bOff r c ps acc.
    assert (E : count acc = Z.of_nat (List.length ps))
      by (unfold acc; rewrite block_sums_spec; reflexivity).
    split; [exact E |]. split; [rewrite E; apply divisor_pos |].
    split; [reflexivity |]. split.
    + intros Hps. split.
      * rewrite E, Hps. reflexivity.
      * apply average_cell_empty. exact Hps.
    + intros Hps. rewrite E. unfold divisor.
      destruct (Z.eqb_spec (Z.of_nat (List.length ps)) 0) as [K | K];
        [| reflexivity].
      destruct ps; [congruence | simpl in K; lia].
  - intros. rewrite average_cell_empty by assumption. apply zeroColor_exact.
  - intros. rewrite average_cell_empty by assumption. reflexivity.
  - vm_compute. reflexivity.
  - vm_compute. reflexivity.
Qed.

(** ** C3 *)

(** In exact arithmetic [floor(c * (cw / targetW))] is the integer quotient
    [c * cw / targetW]. *)
Lemma floor_mul_div (c cw targetW : Z) :
  (0 < targetW)%Z ->
  floorZ (mul (of_Z c) (div (of_Z cw) (of_Z targetW) : Qc)) = (c * cw / targetW)%Z.
Proof.
  intros H. cbn [floorZ mul div of_Z Exact.rational].
  assert (E : (this (Q2Qc (inject_Z c) * (Q2Qc (inject_Z cw) / Q2Qc (inject_Z targetW)))
               == (c * cw) # (Z.to_pos targetW))%Q).
  { qc_q. rewrite Qmake_Qdiv, inject_Z_mult.
    rewrite Z2Pos.id by exact H. field.
    change 0%Q with (inject_Z 0). rewrite inject_Z_injective. lia. }
  rewrite E. cbn [Qfloor]. rewrite Z2Pos.id by exact H. reflexivity.
Qed.

Lemma block_bounds (c cw targetW : Z) :
  (0 < targetW <= cw)%Z -> (0 <= c < targetW)%Z ->
  (0 <= startX (N := Exact.rational) cw targetW c)%Z /\
  (startX (N := Exact.rational) cw targetW c
     < endX (N := Exact.rational) cw targetW c)%Z /\
  (endX (N := Exact.rational) cw targetW c <= cw)%Z.
Proof.
  intros H Hc. unfold startX, endX, blockW. rewrite !floor_mul_div by lia.
  assert (A : (0 <= c * cw / targetW)%Z) by (apply Z.div_pos; nia).
  assert (B : (c * cw / targetW + 1 <= (c + 1) * cw / targetW)%Z).
  { replace (c * cw / targetW + 1)%Z with ((c * cw + 1 * targetW) / targetW)%Z
      by (rewrite Z.div_add by lia; reflexivity).
    apply Z.div_le_mono; nia. }
  assert (C : (c * cw / targetW < cw)%Z).
  { apply Z.div_lt_upper_bound; nia. }
  lia.
Qed.

Lemma block_start_end (c cw targetW : Z) :
  (0 < targetW)%Z -> (0 <= c)%Z -> (0 <= cw)%Z ->
  (0 <= startX (N := Exact.rational) cw targetW c)%Z /\
  (endX (N := Exact.rational) cw targetW c <= cw)%Z.
Proof.
  intros H Hc Hw. unfold startX, endX, blockW. rewrite !floor_mul_div by lia.
  split; [apply Z.div_pos; nia | apply Z.le_min_r].
Qed.

(** In exact arithmetic the pixels read for a cell of the grid lie inside
    the [cw x ch] buffer: their four bytes have indices in [0, 4*cw*ch). *)
Lemma block_index_in_range (cw ch targetW targetH r c y x : Z) :
  (0 < targetW)%Z -> (0 < targetH)%Z -> (0 <= r)%Z -> (0 <= c)%Z ->
  (0 <= cw)%Z -> (0 <= ch)%Z ->
  In (y, x) (block_pixels (N := Exact.rational) cw ch targetW targetH r c) ->
  (0 <= (y * cw + x) * 4)%Z /\ ((y * cw + x) * 4 + 3 < 4 * (cw * ch))%Z.
Proof.
  intros HW HH Hr Hc Hcw Hch Hin. apply in_block_pixels in Hin.
  destruct (block_start_end HW Hc Hcw) as [X0 X1].
  destruct (block_start_end HH Hr Hch) as [Y0 Y1].
  change (startX ch targetH r) with (startY (N := Exact.rational) ch targetH r) in *.
  change (endX ch targetH r) with (endY (N := Exact.rational) ch targetH r) in *.
  nia.
Qed.

Lemma of_Z_succ (z : Z) : (of_Z (z + 1) : Qc) = of_Z z + 1.
Proof. qc_eq. rewrite inject_Z_plus. reflexivity. Qed.

Lemma fold_add_const (l : list Qc) (v a : Qc) :
  (forall x, In x l -> x = v) ->
  fold_left add l a = a + of_Z (Z.of_nat (List.length l)) * v.
Proof.
  revert a. induction l as [| x l IH]; intros a H.
  - cbn [fold_left List.length Z.of_nat]. change (of_Z 0 : Qc) with (0 : Qc). ring.
  - cbn [fold_left List.length]. rewrite IH by (intros; apply H; right; assumption).
    rewrite (H x) by (left; reflexivity).
    rewrite Nat2Z.inj_succ. unfold Z.succ. rewrite of_Z_succ.
    cbn [add Exact.rational]. ring.
Qed.

Lemma mean_const (l : list Qc) (v : Qc) :
  l <> [] -> (forall x, In x l -> x = v) ->
  div (sum_list l) (of_Z (Z.of_nat (List.length l))) = v.
Proof.
  intros Hne H. unfold sum_list. rewrite fold_add_const with (v := v) by exact H.
  assert (P : 0 < of_Z (Z.of_nat (List.length l))).
  { apply of_Z_pos. destruct l; [congruence | simpl; lia]. }
  cbn [div Exact.rational]. change (of_Z 0 : Qc) with (0 : Qc).
  field. apply not_eq_sym, Qclt_not_eq. exact P.
Qed.

Lemma map_const_repeat {A B : Type} (f : A -> B) (l : list A) (v : B) :
  (forall x, In x l -> f x = v) -> map f l = repeat v (List.length l).
Proof.
  induction l as [| a l IH]; intros H; simpl.
  - reflexivity.
  - rewrite (H a) by (left; reflexivity).
    rewrite IH by (intros; apply H; right; assumption). reflexivity.
Qed.

Lemma uniform_cell (p : Pixel) (cw ch targetW targetH : Z) (origData : list Z)
      (brightness : Qc) (r c : Z) :
  (0 < targetW <= cw)%Z -> (0 < targetH <= ch)%Z ->
  (0 <= r < targetH)%Z -> (0 <= c < targetW)%Z ->
  all_pixels_equal cw ch origData p ->
  average_cell cw ch targetW targetH origData (bOffset brightness) r c =
  brightened p brightness.
Proof.
  intros HW HH Hr Hc Hu.
  destruct (block_bounds HW Hc) as (X0 & X1 & X2).
  destruct (block_bounds HH Hr) as (Y0 & Y1 & Y2).
  change (startX ch targetH r) with (startY (N := Exact.rational) ch targetH r) in *.
  change (endX ch targetH r) with (endY (N := Exact.rational) ch targetH r) in *.
  assert (Hin : In (startY (N := Exact.rational) ch targetH r,
                    startX (N := Exact.rational) cw targetW c)
                   (block_pixels (N := Exact.rational) cw ch targetW targetH r c)).
  { apply in_block_pixels. lia. }
  assert (Hne : block_pixels (N := Exact.rational) cw ch targetW targetH r c <> []).
  { intros E. rewrite E in Hin. exact Hin. }
  rewrite average_cell_mean by exact Hne.
  assert (K : forall k v,
             (forall y x, (0 <= y < ch)%Z -> (0 <= x < cw)%Z ->
                          nth (Z.to_nat ((y * cw + x) * 4 + k)) origData 0%Z = v) ->
             mean_over (N := Exact.rational) cw origData (bOffset brightness) k
                       (block_pixels (N := Exact.rational) cw ch targetW targetH r c) =
             clamp255 (add (of_Z v) (bOffset brightness))).
  { intros k v Hk. unfold mean_over. rewrite <- (length_map (sampled cw origData (bOffset brightness) k)).
    apply mean_const.
    - intros E. apply map_eq_nil in E. exact (Hne E).
    - intros x Hx. apply in_map_iff in Hx. destruct Hx as [[y x'] [Ex Hp]].
      apply in_block_pixels in Hp. subst x. unfold sampled, dataAt.
      cbn [fst snd]. rewrite Hk by lia. reflexivity. }
  unfold brightened. f_equal.
  - apply K. intros y x Hy Hx. rewrite Z.add_0_r. apply (Hu y x Hy Hx).
  - apply K. intros y x Hy Hx. apply (Hu y x Hy Hx).
  - apply K. intros y x Hy Hx. apply (Hu y x Hy Hx).
Qed.




(** ** C4 *)

Section EnhancerLoops.
Context {T : Type} {N : JSNumber T}.
Variables (raw : Grid (T := T)) (targetH targetW r c : Z).

(** The loop of lines 112-125 sums the L1 distances to the existing
    neighbours and counts them. *)
Lemma gradient_loop_spec :
  let ns := neighbors targetH targetW r c in
  gradient_loop raw targetH targetW r c =
  (sum_list (map (fun p => l1_dist (cellAt raw r c) (cellAt raw (fst p) (snd p))) ns),
   Z.of_nat (List.length ns)).
Proof.
  unfold gradient_loop, neighbors, dirs, sum_list.
  cbn [fold_left map filter fst snd].
  destruct (inside targetH targetW (r + -1) (c + 0));
    destruct (inside targetH targetW (r + 1) (c + 0));
    destruct (inside targetH targetW (r + 0) (c + -1));
    destruct (inside targetH targetW (r + 0) (c + 1));
    reflexivity.
Qed.

Lemma avgDiff_mean_l1 :
  avgDiff raw targetH targetW r c = mean_l1 raw targetH targetW r c.
Proof.
  unfold avgDiff, mean_l1. rewrite gradient_loop_spec. cbn [fst snd].
  destruct (neighbors targetH targetW r c) as [| n ns]; [reflexivity |].
  replace (0 <? Z.of_nat (List.length (n :: ns)))%Z with true
    by (symmetry; apply Z.ltb_lt; simpl; lia).
  reflexivity.
Qed.
End EnhancerLoops.

(** C4: for every raw grid and cell, when the mean L1 distance of the
    centre to its existing axis-aligned neighbours (0 when it has none) is
    strictly below 15, the enhancer's colour for the cell is the centre's,
    unchanged.  The [avgDiff] the code computes is that mean. *)
Theorem flat_cell_unchanged (T : Type) (N : JSNumber T) (raw : Grid (T := T))
        (targetH targetW r c : Z) :
  ltb (mean_l1 raw targetH targetW r c) (of_Z 15) = true ->
  avgDiff raw targetH targetW r c = mean_l1 raw targetH targetW r c /\
  (neighbors targetH targetW r c = [] -> mean_l1 raw targetH targetW r c = of_Z 0) /\
  enhance_cell raw targetH targetW r c = cellAt raw r c.
Proof.
  intros H. split; [apply avgDiff_mean_l1 |]. split.
  - intros E. unfold mean_l1. rewrite E. reflexivity.
  - unfold enhance_cell. rewrite avgDiff_mean_l1, H. reflexivity.
Qed.

Lemma flat_cell_unchanged_witness :
  ltb (mean_l1 [[mkRaw 10 20 30]]%float 1 1 0 0) (of_Z 15) = true /\
  enhance_cell [[mkRaw 10 20 30]]%float 1 1 0 0 = (mkRaw 10 20 30)%float /\
  ltb (mean_l1 [[mkRaw 10 20 30; mkRaw 14 16 34]]%float 1 2 0 1) (of_Z 15) = true /\
  enhance_cell [[mkRaw 10 20 30; mkRaw 14 16 34]]%float 1 2 0 1 =
    (mkRaw 14 16 34)%float.
Proof.
  assert (H1 : ltb (mean_l1 [[mkRaw 10 20 30]]%float 1 1 0 0) (of_Z 15) = true)
    by reflexivity.
  assert (H2 : ltb (mean_l1 [[mkRaw 10 20 30; mkRaw 14 16 34]]%float 1 2 0 1)
                   (of_Z 15) = true) by reflexivity.
  split; [exact H1 |]. split; [exact (proj2 (proj2 (flat_cell_unchanged _ _ _ _ _ _ H1))) |].
  split; [exact H2 |]. exact (proj2 (proj2 (flat_cell_unchanged _ _ _ _ _ _ H2))).
Defined.

(** ** C5 *)

Lemma clamp255_range_exact (v : Qc) : 0 <= clamp255 v /\ clamp255 v <= of_Z 255.
Proof.
  unfold clamp255. cbn [minn maxn Exact.rational].
  unfold Exact.Qcmin', Exact.Qcmax'. change (of_Z 0 : Qc) with (0 : Qc).
  assert (P : 0 <= (of_Z 255 : Qc)) by (apply Qclt_le_weak, (of_Z_pos (z := 255)); reflexivity).
  destruct (Exact.Qcltb 0 v) eqn:E0.
  - apply Qcltb_lt in E0.
    destruct (Exact.Qcltb v (of_Z 255)) eqn:E1.
    + apply Qcltb_lt in E1. split; apply Qclt_le_weak; assumption.
    + split; [exact P | apply Qcle_refl].
  - destruct (Exact.Qcltb 0 (of_Z 255)) eqn:E1.
    + split; [apply Qcle_refl | exact P].
    + split; [exact P | apply Qcle_refl].
Qed.

Ltac qc_goal :=
  unfold Qcle, Qclt, Qcdiv, Qcminus, Qcplus, Qcmult, Qcinv, Qcopp;
  cbn [this Q2Qc of_Z Exact.rational]; rewrite ?Qred_correct.

(** Evaluate the integer under every [of_Z]. *)
Ltac norm_of_Z :=
  repeat match goal with
         | |- context [@of_Z _ _ ?z] =>
             let z' := eval vm_compute in z in
             progress change z with z'
         end.

Ltac kernel_eq :=
  norm_of_Z; apply Qc_is_canon;
  unfold weightCenter, weightEdge, sum_list;
  cbn [fold_left add sub mul div Exact.rational];
  qc_goal; unfold inject_Z; field.



(** ** C9 *)

Lemma concat_number_rows {A : Type} (rows : list (list A)) (start : nat) :
  concat (number_rows start rows) = seq start (List.length (concat rows)).
Proof.
  revert start. induction rows as [| row rows IH]; intros start; simpl.
  - reflexivity.
  - rewrite IH, length_app, seq_app. reflexivity.
Qed.

Lemma lengths_number_rows {A : Type} (rows : list (list A)) (start : nat) :
  map (@List.length nat) (number_rows start rows) = map (@List.length A) rows.
Proof.
  revert start. induction rows as [| row rows IH]; intros start; simpl.
  - reflexivity.
  - rewrite IH, length_seq. reflexivity.
Qed.

Section EnhanceHeap.
Context {T : Type} {N : JSNumber T}.
Variables (h : Heap (T := T)) (rawRef : RefGrid) (targetH targetW : Z).
Hypothesis raw_allocated :
  Forall (Forall (fun a => (a < List.length h)%nat)) rawRef.

Let raw : Grid := derefGrid h rawRef.

Lemma deref_old (f : Heap) (a : nat) :
  (a < List.length h)%nat -> deref (h ++ f) a = deref h a.
Proof. intros H. unfold deref. apply app_nth1. exact H. Qed.

Lemma derefGrid_old (f : Heap) : derefGrid (h ++ f) rawRef = raw.
Proof.
  unfold raw, derefGrid. apply map_ext_Forall.
  eapply Forall_impl; [| exact raw_allocated].
  intros row Hrow. apply map_ext_Forall.
  eapply Forall_impl; [| exact Hrow].
  intros a Ha. apply deref_old. exact Ha.
Qed.

Lemma inner_loop (r : Z) (cs : list Z) (f0 : Heap) (row0 : list nat) :
  fold_left (enhance_step rawRef targetH targetW r) cs (h ++ f0, row0) =
  (h ++ f0 ++ map (enhance_cell raw targetH targetW r) cs,
   row0 ++ seq (List.length (h ++ f0)) (List.length cs)).
Proof.
  revert f0 row0. induction cs as [| c cs IH]; intros f0 row0.
  - cbn [fold_left map List.length seq]. rewrite !app_nil_r. reflexivity.
  - cbn [fold_left]. unfold enhance_step at 2, alloc. cbn [fst snd].
    rewrite derefGrid_old, <- app_assoc, IH.
    cbn [map List.length seq]. rewrite <- !app_assoc. cbn [app].
    rewrite !length_app. cbn [List.length].
    replace (List.length h + (List.length f0 + 1))%nat
      with (S (List.length h + List.length f0)) by lia.
    reflexivity.
Qed.

Let row_values (r : Z) : list (RawColor T) :=
  map (enhance_cell raw targetH targetW r) (zrange 0 targetW).

Lemma outer_loop (rs : list Z) (f0 : Heap) (out0 : RefGrid) :
  fold_left (enhance_row_step rawRef targetH targetW) rs (h ++ f0, out0) =
  (h ++ f0 ++ concat (map row_values rs),
   out0 ++ number_rows (List.length (h ++ f0)) (map row_values rs)).
Proof.
  revert f0 out0. induction rs as [| r rs IH]; intros f0 out0.
  - cbn [fold_left map concat number_rows]. rewrite !app_nil_r. reflexivity.
  - cbn [fold_left]. unfold enhance_row_step at 2, for_range. cbn [fst snd].
    rewrite inner_loop. cbn [app]. fold (row_values r). rewrite IH.
    cbn [map concat number_rows]. rewrite <- !app_assoc. cbn [app].
    rewrite !length_app, Nat.add_assoc.
    replace (List.length (zrange 0 targetW)) with (List.length (row_values r))
      by (unfold row_values; apply length_map).
    reflexivity.
Qed.

Lemma enhance_heap_spec :
  enhance_heap h rawRef targetH targetW =
  (h ++ concat (enhancedGrid raw targetH targetW),
   number_rows (List.length h) (enhancedGrid raw targetH targetW)).
Proof.
  unfold enhance_heap, for_range.
  rewrite <- (app_nil_r h) at 1. rewrite outer_loop.
  rewrite !app_nil_r. reflexivity.
Qed.
End EnhanceHeap.

Lemma deref_numbered {T : Type} {N : JSNumber T} (rows : list (list (RawColor T)))
      (pre post : Heap) :
  derefGrid (pre ++ concat rows ++ post) (number_rows (List.length pre) rows) = rows.
Proof.
  revert pre. induction rows as [| row rows IH]; intros pre.
  - reflexivity.
  - cbn [number_rows derefGrid map concat]. f_equal.
    + rewrite <- app_assoc.
      clear IH. revert pre. induction row as [| x row IHr]; intros pre.
      * reflexivity.
      * cbn [List.length seq map]. f_equal.
        -- unfold deref. rewrite app_nth2 by lia. rewrite Nat.sub_diag. reflexivity.
        -- specialize (IHr (pre ++ [x])). rewrite length_app in IHr.
           cbn [List.length] in IHr. rewrite Nat.add_1_r in IHr.
           rewrite <- app_assoc in IHr. exact IHr.
    + specialize (IH (pre ++ row)). rewrite length_app in IH.
      rewrite <- !app_assoc in IH. rewrite <- !app_assoc. exact IH.
Qed.

(** The colour of a cell depends on the raw grid only through the centre and
    its in-grid neighbours. *)
Lemma enhance_cell_local {T : Type} {N : JSNumber T} (raw raw' : Grid (T := T))
      (targetH targetW r c : Z) :
  cellAt raw' r c = cellAt raw r c ->
  (forall p, In p (neighbors targetH targetW r c) ->
             cellAt raw' (fst p) (snd p) = cellAt raw (fst p) (snd p)) ->
  enhance_cell raw' targetH targetW r c = enhance_cell raw targetH targetW r c.
Proof.
  intros Hc Hn.
  assert (K : forall d, In d dirs ->
                        inside targetH targetW (r + fst d) (c + snd d) = true ->
                        cellAt raw' (r + fst d) (c + snd d) =
                        cellAt raw (r + fst d) (c + snd d)).
  { intros d Hd Hi. apply (Hn (r + fst d, c + snd d)%Z). unfold neighbors.
    apply filter_In. split; [| exact Hi].
    apply in_map_iff. exists d. split; [reflexivity | exact Hd]. }
  pose proof (K (-1, 0)%Z (or_introl eq_refl)) as K1.
  pose proof (K (1, 0)%Z (or_intror (or_introl eq_refl))) as K2.
  pose proof (K (0, -1)%Z (or_intror (or_intror (or_introl eq_refl)))) as K3.
  pose proof (K (0, 1)%Z (or_intror (or_intror (or_intror (or_introl eq_refl))))) as K4.
  cbn [fst snd] in K1, K2, K3, K4. clear K Hn.
  unfold enhance_cell, avgDiff, sharpen, gradient_loop, kernel_loop, dirs.
  cbn [fold_left fst snd]. rewrite Hc.
  destruct (inside targetH targetW (r + -1) (c + 0));
    [rewrite (K1 eq_refl) | clear K1];
    (destruct (inside targetH targetW (r + 1) (c + 0));
     [rewrite (K2 eq_refl) | clear K2]);
    (destruct (inside targetH targetW (r + 0) (c + -1));
     [rewrite (K3 eq_refl) | clear K3]);
    (destruct (inside targetH targetW (r + 0) (c + 1));
     [rewrite (K4 eq_refl) | clear K4]);
    reflexivity.
Qed.

(** C9: the enhancer does not write to its input.  Run on a store [h] in
    which the raw grid's cells are allocated, it leaves every existing object
    as it was, so the raw grid reads the same before and after; the output
    grid has the shape [targetH x targetW] and is made of objects allocated
    by the run, all distinct; and the output object of cell [(r, c)] holds
    [enhance_cell] of the raw grid as it was before the run, which depends on
    that grid only through the centre and its in-grid neighbours. *)
Theorem enhancer_leaves_raw_grid_untouched (T : Type) (N : JSNumber T)
        (h : Heap (T := T)) (rawRef : RefGrid) (targetH targetW : Z) :
  Forall (Forall (fun a => (a < List.length h)%nat)) rawRef ->
  let h' := fst (enhance_heap h rawRef targetH targetW) in
  let out := snd (enhance_heap h rawRef targetH targetW) in
  let raw := derefGrid h rawRef in
  firstn (List.length h) h' = h /\
  (forall a, (a < List.length h)%nat -> deref h' a = deref h a) /\
  derefGrid h' rawRef = raw /\
  derefGrid h' out = enhancedGrid raw targetH targetW /\
  Forall (Forall (fun a => (List.length h <= a < List.length h')%nat)) out /\
  NoDup (concat out) /\
  map (@List.length nat) out = repeat (Z.to_nat targetW) (Z.to_nat targetH) /\
  (forall (raw' : Grid) (r c : Z),
      cellAt raw' r c = cellAt raw r c ->
      (forall p, In p (neighbors targetH targetW r c) ->
                 cellAt raw' (fst p) (snd p) = cellAt raw (fst p) (snd p)) ->
      enhance_cell raw' targetH targetW r c = enhance_cell raw targetH targetW r c).
Proof.
  intros Hwf h' out raw. unfold h', out. rewrite (@enhance_heap_spec T N h rawRef targetH targetW Hwf).
  cbn [fst snd]. fold raw.
  set (V := enhancedGrid raw targetH targetW).
  split; [| split; [| split; [| split; [| split; [| split; [| split]]]]]].
  - rewrite firstn_app, Nat.sub_diag, firstn_all. cbn [firstn]. apply app_nil_r.
  - intros a Ha. apply deref_old. exact Ha.
  - apply derefGrid_old. exact Hwf.
  - rewrite <- (app_nil_r (concat V)). apply deref_numbered.
  - apply Forall_forall. intros row Hrow. apply Forall_forall. intros a Ha.
    assert (Hin : In a (concat (number_rows (List.length h) V)))
      by (apply in_concat; exists row; split; assumption).
    rewrite concat_number_rows in Hin. apply in_seq in Hin.
    rewrite length_app. lia.
  - rewrite concat_number_rows. apply seq_NoDup.
  - rewrite lengths_number_rows. unfold V, enhancedGrid. rewrite map_map.
    rewrite <- (Z.sub_0_r targetH) at 2. rewrite <- zrange_length.
    apply map_const_repeat. intros r _. rewrite length_map, zrange_length.
    f_equal. lia.
  - intros raw' r c. apply enhance_cell_local.
Qed.

Lemma enhancer_leaves_raw_grid_untouched_witness :
  let h := [mkRaw 0 0 0; mkRaw 100 100 100]%float in
  Forall (Forall (fun a => (a < List.length h)%nat)) [[0; 1]]%nat /\
  derefGrid (fst (enhance_heap h [[0; 1]]%nat 1 2)) [[0; 1]]%nat =
  derefGrid h [[0; 1]]%nat.
Proof.
  assert (H : Forall (Forall (fun a => (a < 2)%nat)) [[0; 1]]%nat).
  { constructor; [| constructor].
    constructor; [apply Nat.lt_0_succ |].
    constructor; [apply Nat.lt_succ_diag_r | constructor]. }
  split; [exact H |].
  exact (proj1 (proj2 (proj2
    (@enhancer_leaves_raw_grid_untouched float IEEE.double
       [mkRaw 0 0 0; mkRaw 100 100 100]%float [[0; 1]]%nat 1 2 H)))).
Defined.

(** ** C7 *)

Ltac qc_lra := qc_q; unfold inject_Z in *; lra.

Lemma clamp255_mono (a b : Qc) : a <= b -> clamp255 a <= clamp255 b.
Proof.
  intros H. unfold clamp255. cbn [minn maxn Exact.rational].
  unfold Exact.Qcmin', Exact.Qcmax'. change (of_Z 0 : Qc) with (0 : Qc).
  destruct (Exact.Qcltb 0 a) eqn:A0;
    [apply Qcltb_lt in A0 | apply Qcltb_ge in A0];
    (destruct (Exact.Qcltb 0 b) eqn:B0;
     [apply Qcltb_lt in B0 | apply Qcltb_ge in B0]);
    match goal with
    | |- (if Exact.Qcltb ?x ?y then _ else _) <= (if Exact.Qcltb ?u ?v then _ else _) =>
        destruct (Exact.Qcltb x y) eqn:A1;
        [apply Qcltb_lt in A1 | apply Qcltb_ge in A1];
        (destruct (Exact.Qcltb u v) eqn:B1;
         [apply Qcltb_lt in B1 | apply Qcltb_ge in B1])
    end; qc_lra.
Qed.

Lemma bOffset_mono (b b' : Qc) : b <= b' -> bOffset b <= bOffset b'.
Proof. intros H. unfold bOffset. cbn [mul Exact.rational]. qc_lra. Qed.

Lemma add_mono_r (v a b : Qc) : a <= b -> add v a <= add v b.
Proof. intros H. cbn [add Exact.rational]. qc_lra. Qed.

Lemma div_mono (a b : Qc) (d : Z) : (1 <= d)%Z -> a <= b -> div a (of_Z d) <= div b (of_Z d).
Proof.
  intros Hd H. assert (P : 0 < of_Z d) by (apply of_Z_pos; lia).
  cbn [div Exact.rational]. unfold Qcdiv.
  apply Qcmult_le_compat_r; [exact H |].
  revert P. generalize (of_Z d : Qc). intros q P. qc_q.
  apply Qlt_le_weak, Qinv_lt_0_compat. exact P.
Qed.

Lemma fold_add_mono (l l' : list Qc) (a a' : Qc) :
  Forall2 Qcle l l' -> a <= a' -> fold_left add l a <= fold_left add l' a'.
Proof.
  intros H. revert a a'. induction H as [| x y l l' Hxy H IH]; intros a a' Ha.
  - exact Ha.
  - cbn [fold_left]. apply IH. cbn [add Exact.rational].
    apply Qcplus_le_compat; assumption.
Qed.

Section BrightnessOrder.
Variables (b b' : Qc).
Hypothesis Hb : b <= b'.

Lemma sampled_mono (cw : Z) (data : list Z) (k : Z) (ps : list (Z * Z)) :
  Forall2 Qcle (map (sampled cw data (bOffset b) k) ps)
               (map (sampled cw data (bOffset b') k) ps).
Proof.
  induction ps as [| p ps IH]; cbn [map]; constructor; [| exact IH].
  unfold sampled. apply clamp255_mono, add_mono_r, bOffset_mono, Hb.
Qed.

Lemma nearest_cell_mono (data : list Z) (targetW r c : Z) :
  color_le (nearest_cell data targetW (bOffset b) r c)
           (nearest_cell data targetW (bOffset b') r c).
Proof.
  unfold color_le, nearest_cell. cbn [colR colG colB].
  repeat split; apply clamp255_mono, add_mono_r, bOffset_mono, Hb.
Qed.

Lemma average_cell_mono (cw ch targetW targetH : Z) (data : list Z) (r c : Z) :
  color_le (average_cell cw ch targetW targetH data (bOffset b) r c)
           (average_cell cw ch targetW targetH data (bOffset b') r c).
Proof.
  unfold color_le, average_cell. rewrite !block_sums_spec.
  cbn [colR colG colB sumR sumG sumB count].
  repeat split; apply div_mono; try apply divisor_pos;
    unfold sum_list; apply fold_add_mono; try apply sampled_mono;
    apply Qcle_refl.
Qed.
End BrightnessOrder.

Lemma Forall2_map_same {A B : Type} (R : B -> B -> Prop) (f g : A -> B) (l : list A) :
  (forall x, R (f x) (g x)) -> Forall2 R (map f l) (map g l).
Proof. intros H. induction l; cbn [map]; constructor; auto. Qed.




(** ** C6 and C10: the legend *)

Import DrawUtils Legend.

Lemma scan_cell_bump (m : StatsMap) (cell : ColorInfo) :
  scan_cell m cell = Some (bump m cell).
Proof.
  unfold scan_cell. induction m as [| [k s] m IH].
  - cbn [has negb set get bump]. rewrite String.eqb_refl. reflexivity.
  - cbn [has bump]. destruct (String.eqb k (code cell)) eqn:E.
    + apply String.eqb_eq in E. subst k. cbn [negb get set].
      rewrite String.eqb_refl. cbn [set]. rewrite ?String.eqb_refl. reflexivity.
    + destruct (has m (code cell)) eqn:Hh; cbn [negb] in *.
      * cbn [get]. rewrite E.
        destruct (get m (code cell)) as [s0 |]; [| discriminate].
        cbn [set]. rewrite E. inversion IH. reflexivity.
      * cbn [set get]. rewrite E. cbn [get].
        destruct (get (set m (code cell) (mkStat cell 0)) (code cell)) as [s0 |];
          [| discriminate].
        cbn [set]. rewrite E. inversion IH. reflexivity.
Qed.

(** *** The index loops visit the cells in row-major order *)

Lemma scan_step_bump (cells : list ColorInfo) (m : StatsMap) :
  fold_left scan_step cells (Some m) = Some (fold_left bump cells m).
Proof.
  revert m. induction cells as [| x cells IH]; intros m.
  - reflexivity.
  - cbn [fold_left scan_step]. rewrite scan_cell_bump. apply IH.
Qed.

Lemma inner_indices (row pre : list ColorInfo) (om : option StatsMap) :
  fold_left
    (fun om c =>
       match om with
       | None => None
       | Some m =>
           match nth_error (pre ++ row) c with
           | Some cell => scan_cell m cell
           | None => None
           end
       end)
    (seq (List.length pre) (List.length row)) om =
  fold_left scan_step row om.
Proof.
  revert pre om. induction row as [| x row IH]; intros pre om.
  - reflexivity.
  - cbn [List.length seq fold_left].
    rewrite nth_error_app2 by apply Nat.le_refl.
    rewrite Nat.sub_diag. cbn [nth_error].
    specialize (IH (pre ++ [x])). rewrite <- app_assoc in IH. cbn [app] in IH.
    rewrite length_app in IH. cbn [List.length] in IH.
    rewrite Nat.add_1_r in IH. rewrite IH. reflexivity.
Qed.

Lemma outer_indices (cols : nat) (grid pre : list (list ColorInfo))
      (om : option StatsMap) :
  Forall (fun row => List.length row = cols) grid ->
  fold_left
    (fun om r =>
       fold_left
         (fun om c =>
            match om with
            | None => None
            | Some m =>
                match nth_error (nth r (pre ++ grid) []) c with
                | Some cell => scan_cell m cell
                | None => None
                end
            end)
         (seq 0 cols) om)
    (seq (List.length pre) (List.length grid)) om =
  fold_left scan_step (concat grid) om.
Proof.
  intros H. revert pre om. induction H as [| row grid Hrow H IH]; intros pre om.
  - reflexivity.
  - cbn [List.length seq fold_left concat]. rewrite fold_left_app.
    rewrite app_nth2 by apply Nat.le_refl. rewrite Nat.sub_diag. cbn [nth].
    rewrite <- Hrow.
    pose proof (inner_indices row [] om) as Hi. cbn [app List.length] in Hi.
    rewrite Hi. clear Hi.
    specialize (IH (pre ++ [row])). rewrite <- app_assoc in IH. cbn [app] in IH.
    rewrite length_app in IH. cbn [List.length] in IH.
    rewrite Nat.add_1_r in IH. rewrite Hrow. apply IH.
Qed.

(** On a rectangular grid the scan succeeds and is the row-major tally. *)
Lemma scan_grid_tally (grid : list (list ColorInfo)) :
  rectangular grid ->
  scan_grid grid = Some (fold_left bump (concat grid) []).
Proof.
  intros [Hne Hrect]. unfold scan_grid. destruct grid as [| row0 grid']; [congruence |].
  cbn [hd] in Hrect.
  pose proof (@outer_indices (List.length row0) (row0 :: grid') [] (Some [])
                             Hrect) as Ho.
  cbn [app List.length] in Ho. cbn [List.length]. rewrite Ho.
  apply scan_step_bump.
Qed.

(** *** Lists: one element before another *)

Lemma before_cons {A : Type} (a : A) (l : list A) (x y : A) :
  before l x y -> before (a :: l) x y.
Proof.
  intros (l1 & l2 & l3 & E). exists (a :: l1), l2, l3. rewrite E. reflexivity.
Qed.

Lemma before_head {A : Type} (x : A) (l : list A) (y : A) :
  In y l -> before (x :: l) x y.
Proof.
  intros H. apply in_split in H. destruct H as (l2 & l3 & E).
  exists [], l2, l3. rewrite E. reflexivity.
Qed.

Lemma before_inv {A : Type} (a : A) (l : list A) (x y : A) :
  before (a :: l) x y -> (x = a /\ In y l) \/ before l x y.
Proof.
  intros (l1 & l2 & l3 & E). destruct l1 as [| b l1]; cbn [app] in E.
  - inversion E; subst. left. split; [reflexivity |].
    apply in_or_app. right. left. reflexivity.
  - inversion E; subst. right. exists l1, l2, l3. reflexivity.
Qed.

Lemma before_nil {A : Type} (x y : A) : ~ before [] x y.
Proof. intros (l1 & l2 & l3 & E). destruct l1; discriminate. Qed.

Lemma before_in {A : Type} (l : list A) (x y : A) :
  before l x y -> In x l /\ In y l.
Proof.
  intros (l1 & l2 & l3 & E). subst l. split.
  - apply in_or_app. right. left. reflexivity.
  - apply in_or_app. right. right. apply in_or_app. right. left. reflexivity.
Qed.

Lemma before_snoc {A : Type} (l : list A) (z x y : A) :
  before (l ++ [z]) x y -> before l x y \/ (In x l /\ y = z).
Proof.
  induction l as [| a l IH]; cbn [app]; intros H.
  - apply before_inv in H. destruct H as [[_ []] | H]. elim (before_nil H).
  - apply before_inv in H. destruct H as [[-> Hy] | H].
    + apply in_app_or in Hy. destruct Hy as [Hy | [<- | []]].
      * left. apply before_head. exact Hy.
      * right. split; [left |]; reflexivity.
    + destruct (IH H) as [Hb | [Hx ->]].
      * left. apply before_cons. exact Hb.
      * right. split; [right; exact Hx | reflexivity].
Qed.

Lemma before_map {A B : Type} (f : A -> B) (l : list A) (x y : A) :
  before l x y -> before (map f l) (f x) (f y).
Proof.
  intros (l1 & l2 & l3 & E). subst l.
  exists (map f l1), (map f l2), (map f l3).
  rewrite map_app. cbn [map]. rewrite map_app. reflexivity.
Qed.

Lemma before_filter {A : Type} (p : A -> bool) (l : list A) (x y : A) :
  p x = true -> p y = true -> before l x y -> before (filter p l) x y.
Proof.
  intros Hx Hy (l1 & l2 & l3 & E). subst l.
  exists (filter p l1), (filter p l2), (filter p l3).
  rewrite filter_app. cbn [filter]. rewrite Hx, filter_app. cbn [filter].
  rewrite Hy. reflexivity.
Qed.

Lemma filter_before {A : Type} (p : A -> bool) (l : list A) (x y : A) :
  before (filter p l) x y -> before l x y.
Proof.
  induction l as [| a l IH]; cbn [filter]; intros H.
  - exact H.
  - destruct (p a).
    + apply before_inv in H. destruct H as [[-> Hy] | H].
      * apply before_head. apply filter_In in Hy. tauto.
      * apply before_cons, IH, H.
    + apply before_cons, IH, H.
Qed.

(** *** The stable sort by descending count *)

Lemma insert_sorted_perm {A : Type} (cmp : A -> A -> Z) (x : A) (l : list A) :
  Permutation (insert_sorted cmp x l) (x :: l).
Proof.
  induction l as [| y l IH]; cbn [insert_sorted].
  - apply Permutation_refl.
  - destruct (cmp x y <=? 0)%Z.
    + apply Permutation_refl.
    + eapply perm_trans; [apply perm_skip, IH | apply perm_swap].
Qed.

Lemma js_sort_perm {A : Type} (cmp : A -> A -> Z) (l : list A) :
  Permutation (js_sort cmp l) l.
Proof.
  induction l as [| x l IH]; cbn [js_sort fold_right].
  - apply perm_nil.
  - eapply perm_trans; [apply insert_sorted_perm |]. apply perm_skip, IH.
Qed.

Lemma insert_sorted_desc (x : Stat) (l : list Stat) :
  StronglySorted ge_count l ->
  StronglySorted ge_count (insert_sorted by_count_desc x l).
Proof.
  induction 1 as [| y l Hs IH Hf]; cbn [insert_sorted].
  - constructor; constructor.
  - destruct (Z.leb_spec (by_count_desc x y) 0) as [Hc | Hc];
      unfold by_count_desc in Hc.
    + constructor; [constructor; assumption |].
      constructor; [unfold ge_count; lia |].
      eapply Forall_impl; [| exact Hf].
      intros z Hz. unfold ge_count in *. lia.
    + constructor; [exact IH |].
      eapply Permutation_Forall;
        [apply Permutation_sym, insert_sorted_perm |].
      constructor; [unfold ge_count; lia | exact Hf].
Qed.

Lemma js_sort_desc (l : list Stat) :
  StronglySorted ge_count (js_sort by_count_desc l).
Proof.
  induction l as [| x l IH]; cbn [js_sort fold_right].
  - constructor.
  - apply insert_sorted_desc, IH.
Qed.

Lemma sorted_before (l : list Stat) (x y : Stat) :
  StronglySorted ge_count l -> before l x y -> (count y <= count x)%nat.
Proof.
  induction 1 as [| a l Hs IH Hf]; intros H.
  - elim (before_nil H).
  - apply before_inv in H. destruct H as [[-> Hy] | H].
    + exact (proj1 (Forall_forall _ _) Hf y Hy).
    + apply IH, H.
Qed.

(** Stability: the entries of any one count keep their relative order. *)
Lemma insert_sorted_stable (n : nat) (x : Stat) (l : list Stat) :
  filter (fun s => count s =? n)%nat (insert_sorted by_count_desc x l) =
  filter (fun s => count s =? n)%nat (x :: l).
Proof.
  induction l as [| y l IH]; cbn [insert_sorted].
  - reflexivity.
  - destruct (Z.leb_spec (by_count_desc x y) 0) as [Hc | Hc];
      unfold by_count_desc in Hc; [reflexivity |].
    cbn [filter] in *. rewrite IH.
    destruct (Nat.eqb_spec (count x) n) as [Ex | Ex];
      destruct (Nat.eqb_spec (count y) n) as [Ey | Ey]; try reflexivity.
    lia.
Qed.

Lemma js_sort_stable (n : nat) (l : list Stat) :
  filter (fun s => count s =? n)%nat (js_sort by_count_desc l) =
  filter (fun s => count s =? n)%nat l.
Proof.
  induction l as [| x l IH]; cbn [js_sort fold_right].
  - reflexivity.
  - rewrite insert_sorted_stable. cbn [filter]. fold (js_sort by_count_desc l).
    rewrite IH. reflexivity.
Qed.

Lemma js_sort_ties (l : list Stat) (x y : Stat) :
  before (js_sort by_count_desc l) x y -> count x = count y -> before l x y.
Proof.
  intros H E.
  apply (filter_before (fun s => count s =? count x)%nat).
  rewrite <- js_sort_stable.
  apply before_filter; [apply Nat.eqb_refl | | exact H].
  apply Nat.eqb_eq. symmetry. exact E.
Qed.

(** *** The tally *)

Lemma first_index_lt (k : string) (l : list string) :
  In k l -> (first_index k l < List.length l)%nat.
Proof.
  induction l as [| a l IH]; cbn [first_index List.length In]; intros H.
  - elim H.
  - destruct (String.eqb_spec a k) as [E | E]; [lia |].
    destruct H as [H | H]; [congruence |]. specialize (IH H). lia.
Qed.

Lemma first_index_app (k : string) (l l' : list string) :
  In k l -> first_index k (l ++ l') = first_index k l.
Proof.
  induction l as [| a l IH]; cbn [first_index app In]; intros H.
  - elim H.
  - destruct (String.eqb_spec a k) as [E | E]; [reflexivity |].
    destruct H as [H | H]; [congruence |]. rewrite IH by exact H. reflexivity.
Qed.

Lemma first_index_new (k : string) (l : list string) :
  ~ In k l -> first_index k (l ++ [k]) = List.length l.
Proof.
  induction l as [| a l IH]; cbn [first_index app In List.length]; intros H.
  - rewrite String.eqb_refl. reflexivity.
  - destruct (String.eqb_spec a k) as [E | E]; [tauto |].
    rewrite IH by tauto. reflexivity.
Qed.

Lemma occurrences_snoc (k x : string) (l : list string) :
  occurrences k (l ++ [x]) =
  (occurrences k l + if String.eqb x k then 1 else 0)%nat.
Proof.
  unfold occurrences. rewrite count_occ_app. cbn [count_occ].
  destruct (string_dec x k) as [E | E].
  - subst. rewrite String.eqb_refl. reflexivity.
  - apply String.eqb_neq in E. rewrite E. reflexivity.
Qed.

Lemma bump_absent (m : StatsMap) (cell : ColorInfo) :
  ~ In (code cell) (keys m) -> bump m cell = m ++ [(code cell, mkStat cell 1)].
Proof.
  induction m as [| [k s] m IH]; cbn [bump keys map fst In app]; intros H.
  - reflexivity.
  - destruct (String.eqb_spec k (code cell)) as [E | E]; [tauto |].
    fold (keys m) in H. rewrite IH by tauto. reflexivity.
Qed.

Lemma bump_present (m : StatsMap) (cell : ColorInfo) :
  In (code cell) (keys m) ->
  exists A s B,
    m = A ++ (code cell, s) :: B /\
    ~ In (code cell) (keys A) /\
    bump m cell = A ++ (code cell, mkStat (color s) (S (count s))) :: B.
Proof.
  induction m as [| [k s] m IH]; cbn [bump keys map fst In]; intros H.
  - elim H.
  - destruct (String.eqb_spec k (code cell)) as [E | E].
    + subst k. exists [], s, m. repeat split. intros [].
    + fold (keys m) in H. destruct H as [H | H]; [congruence |].
      destruct (IH H) as (A & s0 & B & Em & HA & Eb).
      exists ((k, s) :: A), s0, B. rewrite Eb, Em. repeat split.
      cbn [keys map fst In]. fold (keys A). tauto.
Qed.

Lemma tallied_nil : tallied [] [].
Proof.
  constructor; cbn.
  - constructor.
  - tauto.
  - constructor.
  - intros k1 k2 H. elim (before_nil H).
  - reflexivity.
Qed.

Lemma total_app (a b : list Stat) : total (a ++ b) = (total a + total b)%nat.
Proof. unfold total. rewrite map_app, list_sum_app. reflexivity. Qed.

Lemma tallied_bump (m : StatsMap) (l : list string) (cell : ColorInfo) :
  tallied m l -> tallied (bump m cell) (l ++ [code cell]).
Proof.
  intros [K1 K2 K3 K4 K5]. set (x := code cell).
  destruct (in_dec string_dec x (keys m)) as [Hin | Hout].
  - (* the code has an entry: it is counted once more, in place *)
    destruct (bump_present m cell Hin) as (A & s & B & Em & HA & Eb).
    fold x in Em, HA, Eb. rewrite Eb.
    assert (Ek : keys (A ++ (x, mkStat (color s) (S (count s))) :: B) = keys m).
    { rewrite Em. unfold keys. rewrite !map_app. reflexivity. }
    assert (Hl : In x l) by (apply K2; exact Hin).
    assert (HB : ~ In x (keys B)).
    { rewrite Em in K1. unfold keys in K1. rewrite map_app in K1.
      cbn [map fst] in K1. apply NoDup_remove_2 in K1.
      intros H. apply K1. apply in_or_app. right. exact H. }
    rewrite Em in K3. apply Forall_app in K3. destruct K3 as [K3A K3B].
    apply Forall_cons_iff in K3B. destruct K3B as [[Ks Kc] K3B].
    cbn [fst snd] in Ks, Kc.
    constructor.
    + rewrite Ek. exact K1.
    + intros k. rewrite Ek, K2, in_app_iff. cbn [In].
      split; [tauto |]. intros [H | [<- | []]]; assumption.
    + apply Forall_app. split; [| constructor].
      * apply Forall_forall. intros e He.
        pose proof (proj1 (Forall_forall _ _) K3A e He) as [E1 E2].
        split; [exact E1 |]. rewrite occurrences_snoc, E2.
        destruct (String.eqb_spec x (fst e)) as [E | E]; [| lia].
        elim HA. rewrite E. apply in_map. exact He.
      * cbn [fst snd]. split; [exact Ks |].
        rewrite occurrences_snoc, String.eqb_refl. cbn [count]. lia.
      * apply Forall_forall. intros e He.
        pose proof (proj1 (Forall_forall _ _) K3B e He) as [E1 E2].
        split; [exact E1 |]. rewrite occurrences_snoc, E2.
        destruct (String.eqb_spec x (fst e)) as [E | E]; [| lia].
        elim HB. rewrite E. apply in_map. exact He.
    + intros k1 k2 H. rewrite Ek in H.
      destruct (before_in H) as [H1 H2].
      rewrite !first_index_app by (apply K2; assumption).
      apply K4, H.
    + rewrite length_app. cbn [List.length]. rewrite <- K5, Em.
      unfold values. rewrite !map_app. cbn [map snd].
      rewrite !total_app. unfold total. cbn [map count].
      cbn [list_sum fold_right]. lia.
  - (* a new code: its entry goes last, with count 1 *)
    rewrite bump_absent by exact Hout. fold x.
    assert (Hl : ~ In x l) by (rewrite <- K2; exact Hout).
    assert (Ek : keys (m ++ [(x, mkStat cell 1)]) = keys m ++ [x]).
    { unfold keys. rewrite map_app. reflexivity. }
    constructor.
    + rewrite Ek. apply NoDup_app; [exact K1 | repeat constructor; intros [] |].
      intros a Ha [<- | []]. exact (Hout Ha).
    + intros k. rewrite Ek, !in_app_iff, K2. reflexivity.
    + apply Forall_app. split.
      * apply Forall_forall. intros e He.
        pose proof (proj1 (Forall_forall _ _) K3 e He) as [E1 E2].
        split; [exact E1 |]. rewrite occurrences_snoc, E2.
        destruct (String.eqb_spec x (fst e)) as [E | E]; [| lia].
        elim Hout. rewrite E. apply in_map. exact He.
      * constructor; [| constructor]. cbn [fst snd]. split; [reflexivity |].
        rewrite occurrences_snoc, String.eqb_refl. unfold occurrences.
        rewrite (proj1 (count_occ_not_In string_dec l x) Hl). reflexivity.
    + intros k1 k2 H. rewrite Ek in H.
      apply before_snoc in H. destruct H as [Hb | [H1 ->]].
      * destruct (before_in Hb) as [H1 H2].
        rewrite !first_index_app by (apply K2; assumption). apply K4, Hb.
      * rewrite first_index_app by (apply K2; exact H1).
        rewrite first_index_new by exact Hl.
        apply first_index_lt, K2, H1.
    + unfold values. rewrite map_app, total_app, length_app.
      fold (values m). rewrite K5. reflexivity.
Qed.

Lemma tallied_fold (cells : list ColorInfo) (m : StatsMap) (l : list string) :
  tallied m l -> tallied (fold_left bump cells m) (l ++ map code cells).
Proof.
  revert m l. induction cells as [| cell cells IH]; intros m l H.
  - cbn [fold_left map]. rewrite app_nil_r. exact H.
  - cbn [fold_left map].
    replace (l ++ code cell :: map code cells)
      with ((l ++ [code cell]) ++ map code cells)
      by (rewrite <- app_assoc; reflexivity).
    apply IH, tallied_bump, H.
Qed.

Lemma tally_of_grid (grid : list (list ColorInfo)) :
  rectangular grid ->
  exists m, stats grid = Some (js_sort by_count_desc (values m)) /\
            tallied m (codes grid).
Proof.
  intros H. exists (fold_left bump (concat grid) []). split.
  - unfold stats. rewrite scan_grid_tally by exact H. reflexivity.
  - apply (tallied_fold (concat grid) tallied_nil).
Qed.

Lemma tallied_scodes (m : StatsMap) (l : list string) :
  tallied m l -> map scode (values m) = keys m.
Proof.
  intros H. pose proof (tl_entry H) as K. unfold values, keys.
  rewrite map_map. apply map_ext_Forall.
  eapply Forall_impl; [| exact K]. intros e [E _]. exact E.
Qed.

Lemma tallied_value (m : StatsMap) (l : list string) (s : Stat) :
  tallied m l -> In s (values m) ->
  In (scode s) l /\ count s = occurrences (scode s) l.
Proof.
  intros H Hs. unfold values in Hs. apply in_map_iff in Hs.
  destruct Hs as [e [<- He]].
  pose proof (proj1 (Forall_forall _ _) (tl_entry H) e He) as [E1 E2].
  rewrite E1. split; [| exact E2].
  apply (tl_keys H). unfold keys. apply in_map. exact He.
Qed.

Lemma length_concat_rect {A : Type} (cols : nat) (grid : list (list A)) :
  Forall (fun row => List.length row = cols) grid ->
  List.length (concat grid) = (List.length grid * cols)%nat.
Proof.
  induction 1 as [| row grid Hrow H IH]; cbn [concat List.length].
  - reflexivity.
  - rewrite length_app, IH, Hrow. reflexivity.
Qed.

(** C6: for every non-empty (rectangular) resolved grid the legend has one
    entry per distinct palette code, with its number of occurrences; it is
    ordered by descending count; and entries with equal counts stand in the
    order in which their codes are first met in a row-major scan.  For the
    grid with A five times, B and C three times each, first seen A, C, B, the
    legend is A (5), C (3), B (3). *)
Theorem legend_sorted_by_count_then_first_seen :
  (forall grid : list (list ColorInfo),
      rectangular grid ->
      exists legend,
        stats grid = Some legend /\
        NoDup (map scode legend) /\
        (forall k, In k (map scode legend) <-> In k (codes grid)) /\
        Forall (fun s => count s = occurrences (scode s) (codes grid)) legend /\
        (forall s1 s2, before legend s1 s2 -> (count s2 <= count s1)%nat) /\
        (forall s1 s2, before legend s1 s2 -> count s1 = count s2 ->
                       (first_index (scode s1) (codes grid)
                        < first_index (scode s2) (codes grid))%nat)) /\
  codes example_grid =
    ["A"; "C"; "B"; "A"; "A"; "C"; "B"; "A"; "C"; "B"; "A"]%string /\
  option_map (map (fun s => (scode s, count s))) (stats example_grid) =
    Some [("A", 5); ("C", 3); ("B", 3)]%string%nat /\
  option_map (map (fun s => (scode s, count s))) (stats small_grid) =
    Some [("B", 3); ("C", 2); ("A", 1)]%string%nat.
Proof.
  split; [| repeat split].
  intros grid Hrect.
  destruct (tally_of_grid Hrect) as (m & Es & Ht).
  set (legend := js_sort by_count_desc (values m)) in *.
  assert (P : Permutation legend (values m)) by apply js_sort_perm.
  exists legend. split; [exact Es |].
  split; [| split; [| split; [| split]]].
  - apply (Permutation_NoDup (l := map scode (values m))).
    + apply Permutation_map, Permutation_sym, P.
    + rewrite (tallied_scodes Ht). apply (tl_nodup Ht).
  - intros k. rewrite <- (tl_keys Ht), <- (tallied_scodes Ht). split.
    + apply Permutation_in, Permutation_map, P.
    + apply Permutation_in, Permutation_map, Permutation_sym, P.
  - apply Forall_forall. intros s Hs.
    exact (proj2 (@tallied_value m (codes grid) s Ht (Permutation_in _ P Hs))).
  - intros s1 s2 H. apply (sorted_before (l := legend)); [| exact H].
    apply js_sort_desc.
  - intros s1 s2 H E. apply (tl_order Ht).
    rewrite <- (tallied_scodes Ht). apply before_map.
    apply js_sort_ties; assumption.
Qed.

(** C10: for every non-empty rectangular grid of palette entries, every
    legend entry has a count of at least 1, every code of the grid has an
    entry and no two entries share a code, and the counts add up to
    rows * cols. *)
Theorem legend_counts_every_cell_once (grid : list (list ColorInfo)) :
  rectangular grid ->
  exists legend,
    stats grid = Some legend /\
    Forall (fun s => (1 <= count s)%nat) legend /\
    NoDup (map scode legend) /\
    (forall k, In k (codes grid) <-> In k (map scode legend)) /\
    total legend = (List.length grid * List.length (hd [] grid))%nat.
Proof.
  intros Hrect.
  destruct (tally_of_grid Hrect) as (m & Es & Ht).
  set (legend := js_sort by_count_desc (values m)) in *.
  assert (P : Permutation legend (values m)) by apply js_sort_perm.
  exists legend. split; [exact Es |].
  split; [| split; [| split]].
  - apply Forall_forall. intros s Hs.
    destruct (@tallied_value m (codes grid) s Ht (Permutation_in _ P Hs))
      as [Hin ->].
    unfold occurrences. apply count_occ_In. exact Hin.
  - apply (Permutation_NoDup (l := map scode (values m))).
    + apply Permutation_map, Permutation_sym, P.
    + rewrite (tallied_scodes Ht). apply (tl_nodup Ht).
  - intros k. rewrite <- (tl_keys Ht), <- (tallied_scodes Ht). split.
    + apply Permutation_in, Permutation_map, Permutation_sym, P.
    + apply Permutation_in, Permutation_map, P.
  - transitivity (total (values m)).
    + unfold total. apply Permutation_list_sum, Permutation_map, P.
    + rewrite (tl_total Ht). unfold codes. rewrite length_map.
      apply length_concat_rect. apply Hrect.
Qed.

Lemma legend_counts_every_cell_once_witness :
  rectangular small_grid /\
  exists legend,
    stats small_grid = Some legend /\
    total legend = (2 * 3)%nat.
Proof.
  assert (H : rectangular small_grid).
  { split; [discriminate |]. repeat constructor. }
  split; [exact H |].
  destruct (legend_counts_every_cell_once H) as (legend & E & _ & _ & _ & Ht).
  exists legend. split; [exact E | exact Ht].
Defined.

(** * Further properties *)

(** ** From the form to the legend *)

Lemma validate_dimension_range (w : Z) :
  (1 <= validate_dimension w <= 120)%Z.
Proof. unfold validate_dimension. lia. Qed.

Lemma grid_shape {A B : Type} (f : Z -> Z -> B) (g : B -> A) (w h : Z) :
  let grid := map (map g) (map (fun r => map (fun c => f r c) (zrange 0 w))
                               (zrange 0 h)) in
  List.length grid = Z.to_nat h /\
  Forall (fun row => List.length row = Z.to_nat w) grid.
Proof.
  intros grid. unfold grid. split.
  - rewrite !length_map, zrange_length. f_equal. lia.
  - rewrite map_map. apply Forall_forall. intros row Hrow.
    apply in_map_iff in Hrow. destruct Hrow as [r [<- _]].
    rewrite !length_map, zrange_length. f_equal. lia.
Qed.

Lemma generate_cells_shape {T : Type} {N : JSNumber T} (img : ImageSource T)
      (targetW targetH : Z) (algorithm : Algorithm) (brightness : T) :
  List.length (generate_cells img targetW targetH algorithm brightness) =
    Z.to_nat targetH /\
  Forall (fun row => List.length row = Z.to_nat targetW)
         (generate_cells img targetW targetH algorithm brightness).
Proof.
  pose proof (fun f => @grid_shape (RawColor T) (RawColor T) f (fun x => x)
                                   targetW targetH) as G.
  cbv zeta in G.
  assert (I : forall l : list (list (RawColor T)), map (map (fun x => x)) l = l).
  { intros l. rewrite <- (map_id l) at 2. apply map_ext. intros a. apply map_id. }
  unfold generate_cells.
  destruct algorithm; unfold rawGrid, nearestGrid, enhancedGrid;
    match goal with
    | |- context [map (fun r => map (fun c => @?f r c) _) _] =>
        specialize (G f); rewrite I in G; exact G
    end.
Qed.


(** ** The colours handed to the palette resolver *)

Lemma clamp255_gamut (x y z : Qc) :
  in_gamut (mkRaw (clamp255 x) (clamp255 y) (clamp255 z)).
Proof. intros k. destruct k; cbn [chan colR colG colB]; apply clamp255_range_exact. Qed.

Lemma zeroColor_gamut : in_gamut (zeroColor (N := Exact.rational)).
Proof. intros k. destruct k; cbn; split; discriminate. Qed.

Lemma sum_list_range (l : list Qc) :
  (forall x, In x l -> 0 <= x /\ x <= of_Z 255) ->
  0 <= sum_list l /\ sum_list l <= of_Z (Z.of_nat (List.length l)) * of_Z 255.
Proof.
  intros H. unfold sum_list. split.
  - assert (E : fold_left add (repeat (0 : Qc) (List.length l)) (of_Z 0) = 0).
    { rewrite fold_add_const with (v := 0 : Qc) by (intros x Hx; apply repeat_spec in Hx; exact Hx).
      change (of_Z 0 : Qc) with (0 : Qc). ring. }
    rewrite <- E at 1. apply fold_add_mono; [| apply Qcle_refl].
    clear E. induction l as [| a l IH]; cbn [List.length repeat]; constructor.
    + apply H. left. reflexivity.
    + apply IH. intros x Hx. apply H. right. exact Hx.
  - assert (E : fold_left add (repeat (of_Z 255 : Qc) (List.length l)) (of_Z 0) =
                of_Z (Z.of_nat (List.length l)) * of_Z 255).
    { rewrite fold_add_const with (v := of_Z 255 : Qc)
        by (intros x Hx; apply repeat_spec in Hx; exact Hx).
      rewrite repeat_length. change (of_Z 0 : Qc) with (0 : Qc). ring. }
    rewrite <- E. apply fold_add_mono; [| apply Qcle_refl].
    clear E. induction l as [| a l IH]; cbn [List.length repeat]; constructor.
    + apply H. left. reflexivity.
    + apply IH. intros x Hx. apply H. right. exact Hx.
Qed.

Lemma mean_range (l : list Qc) :
  (forall x, In x l -> 0 <= x /\ x <= of_Z 255) ->
  0 <= div (sum_list l) (of_Z (divisor (Z.of_nat (List.length l)))) /\
  div (sum_list l) (of_Z (divisor (Z.of_nat (List.length l)))) <= of_Z 255.
Proof.
  intros H. destruct (sum_list_range l H) as [L U].
  pose proof (divisor_pos (List.length l)) as D.
  assert (P : 0 < of_Z (divisor (Z.of_nat (List.length l))))
    by (apply of_Z_pos; lia).
  assert (NZ : (of_Z (divisor (Z.of_nat (List.length l))) : Qc) <> 0)
    by (apply not_eq_sym, Qclt_not_eq; exact P).
  split.
  - replace (0 : Qc) with (div (0 : Qc) (of_Z (divisor (Z.of_nat (List.length l)))))
      by (cbn [div Exact.rational]; field; exact NZ).
    apply div_mono; [exact D | exact L].
  - destruct l as [| a l].
    + cbn. discriminate.
    + assert (Ed : divisor (Z.of_nat (List.length (a :: l))) =
                   Z.of_nat (List.length (a :: l))).
      { unfold divisor.
        destruct (Z.eqb_spec (Z.of_nat (List.length (a :: l))) 0) as [K | K];
          [cbn in K; lia | reflexivity]. }
      rewrite Ed in *.
      replace (of_Z 255 : Qc)
        with (div (of_Z (Z.of_nat (List.length (a :: l))) * of_Z 255 : Qc)
                  (of_Z (Z.of_nat (List.length (a :: l)))))
        by (cbn [div Exact.rational]; field; exact NZ).
      apply div_mono; [lia | exact U].
Qed.

Lemma average_cell_gamut (cw ch targetW targetH : Z) (data : list Z)
      (bOff : Qc) (r c : Z) :
  in_gamut (average_cell cw ch targetW targetH data bOff r c).
Proof.
  unfold average_cell. rewrite block_sums_spec.
  cbn [sumR sumG sumB count].
  intros k. destruct k; cbn [chan colR colG colB];
    match goal with
    | |- context [sum_list (map ?f ?ps)] =>
        rewrite <- (length_map f ps); apply mean_range;
        intros x Hx; apply in_map_iff in Hx; destruct Hx as [p [<- _]];
        apply clamp255_range_exact
    end.
Qed.

Lemma cellAt_gamut (grid : Grid (T := Qc)) (r c : Z) :
  Forall (Forall in_gamut) grid -> in_gamut (cellAt grid r c).
Proof.
  intros H. unfold cellAt.
  assert (Hrow : Forall in_gamut (nth (Z.to_nat r) grid [])).
  { destruct (nth_in_or_default (Z.to_nat r) grid []) as [Hin | ->].
    - exact (proj1 (Forall_forall _ _) H _ Hin).
    - constructor. }
  destruct (nth_in_or_default (Z.to_nat c) (nth (Z.to_nat r) grid []) zeroColor)
    as [Hin | ->].
  - exact (proj1 (Forall_forall _ _) Hrow _ Hin).
  - apply zeroColor_gamut.
Qed.

Lemma enhance_cell_gamut (raw : Grid (T := Qc)) (targetH targetW r c : Z) :
  Forall (Forall in_gamut) raw ->
  in_gamut (enhance_cell raw targetH targetW r c).
Proof.
  intros H. unfold enhance_cell.
  destruct (ltb (avgDiff raw targetH targetW r c) (of_Z 15)).
  - apply cellAt_gamut, H.
  - unfold sharpen. apply clamp255_gamut.
Qed.

Lemma Forall_grid {A : Type} (P : A -> Prop) (f : Z -> Z -> A) (w h : Z) :
  (forall r c, P (f r c)) ->
  Forall (Forall P) (map (fun r => map (fun c => f r c) (zrange 0 w)) (zrange 0 h)).
Proof.
  intros H. apply Forall_forall. intros row Hrow. apply in_map_iff in Hrow.
  destruct Hrow as [r [<- _]]. apply Forall_forall. intros x Hx.
  apply in_map_iff in Hx. destruct Hx as [c [<- _]]. apply H.
Qed.

(** X2: in exact arithmetic, whatever the image, the canvas read-back, the
    grid size, the algorithm and the brightness, every channel of every
    colour handed to [findClosestColor] lies in [0, 255]. *)
Theorem resolver_input_in_gamut (img : ImageSource Qc) (targetW targetH : Z)
        (algorithm : Algorithm) (brightness : Qc) :
  Forall (Forall in_gamut)
         (generate_cells img targetW targetH algorithm brightness).
Proof.
  unfold generate_cells.
  assert (A : forall cw ch data,
             Forall (Forall in_gamut)
                    (rawGrid cw ch targetW targetH data (bOffset brightness))).
  { intros cw ch data. unfold rawGrid.
    apply (Forall_grid in_gamut
             (fun r c => average_cell cw ch targetW targetH data
                                      (bOffset brightness) r c)).
    intros r c. apply average_cell_gamut. }
  destruct algorithm.
  - apply A.
  - unfold nearestGrid.
    apply (Forall_grid in_gamut
             (fun r c => nearest_cell _ targetW (bOffset brightness) r c)).
    intros r c. unfold nearest_cell. apply clamp255_gamut.
  - unfold enhancedGrid.
    apply (Forall_grid in_gamut (fun r c => enhance_cell _ targetH targetW r c)).
    intros r c. apply enhance_cell_gamut, A.
Qed.

(** ** A source of one colour, sharpened *)

Lemma cellAt_constant {T : Type} {N : JSNumber T} (v : RawColor T) (w h r c : Z) :
  (0 <= r < h)%Z -> (0 <= c < w)%Z -> cellAt (constant_grid v w h) r c = v.
Proof.
  intros Hr Hc. unfold cellAt, constant_grid.
  assert (E : nth (Z.to_nat r) (repeat (repeat v (Z.to_nat w)) (Z.to_nat h)) [] =
              repeat v (Z.to_nat w)).
  { apply (repeat_spec (Z.to_nat h)). apply nth_In. rewrite repeat_length. lia. }
  rewrite E. apply (repeat_spec (Z.to_nat w)). apply nth_In.
  rewrite repeat_length. lia.
Qed.

Lemma l1_dist_same (v : RawColor Qc) : l1_dist v v = 0.
Proof.
  unfold l1_dist. cbn [sub add absn Exact.rational].
  replace (colR v - colR v) with (0 : Qc) by ring.
  replace (colG v - colG v) with (0 : Qc) by ring.
  replace (colB v - colB v) with (0 : Qc) by ring.
  apply Qc_is_canon. reflexivity.
Qed.

Lemma inside_range (targetH targetW nr nc : Z) :
  inside targetH targetW nr nc = true ->
  (0 <= nr < targetH)%Z /\ (0 <= nc < targetW)%Z.
Proof. unfold inside. intros H. lia. Qed.

Lemma enhance_cell_constant (v : RawColor Qc) (w h r c : Z) :
  (0 <= r < h)%Z -> (0 <= c < w)%Z ->
  enhance_cell (constant_grid v w h) h w r c = v.
Proof.
  intros Hr Hc.
  assert (K : forall nr nc, inside h w nr nc = true ->
                            cellAt (constant_grid v w h) nr nc = v).
  { intros nr nc Hi. apply inside_range in Hi. apply cellAt_constant; tauto. }
  assert (F : ltb (avgDiff (constant_grid v w h) h w r c) (of_Z 15) = true).
  { unfold avgDiff, gradient_loop, dirs. cbn [fold_left fst snd].
    rewrite (cellAt_constant v Hr Hc).
    destruct (inside h w (r + -1) (c + 0)) eqn:E1;
      [rewrite (K _ _ E1) |];
      (destruct (inside h w (r + 1) (c + 0)) eqn:E2;
       [rewrite (K _ _ E2) |]);
      (destruct (inside h w (r + 0) (c + -1)) eqn:E3;
       [rewrite (K _ _ E3) |]);
      (destruct (inside h w (r + 0) (c + 1)) eqn:E4;
       [rewrite (K _ _ E4) |]);
      rewrite ?l1_dist_same; reflexivity. }
  unfold enhance_cell. rewrite F. apply cellAt_constant; assumption.
Qed.

Lemma grid_constant {A : Type} (f : Z -> Z -> A) (v : A) (w h : Z) :
  (forall r c, (0 <= r < h)%Z -> (0 <= c < w)%Z -> f r c = v) ->
  map (fun r => map (fun c => f r c) (zrange 0 w)) (zrange 0 h) =
  constant_grid v w h.
Proof.
  intros H. unfold constant_grid.
  replace (Z.to_nat h) with (List.length (zrange 0 h))
    by (rewrite zrange_length; f_equal; lia).
  apply map_const_repeat. intros r Hr. apply in_zrange in Hr.
  replace (Z.to_nat w) with (List.length (zrange 0 w))
    by (rewrite zrange_length; f_equal; lia).
  apply map_const_repeat. intros c Hc. apply in_zrange in Hc.
  apply H; assumption.
Qed.



(** ** The direction of the sharpening *)

Lemma sharpen_direction (raw : Grid (T := Qc)) (targetH targetW r c : Z)
      (k : Channel) (up : bool) :
  let le := fun a b : Qc => if up then a <= b else b <= a in
  (forall p, In p (neighbors targetH targetW r c) ->
             le (chan k (cellAt raw (fst p) (snd p))) (chan k (cellAt raw r c))) ->
  exists F, chan k (sharpen raw targetH targetW r c) = clamp255 F /\
            le (chan k (cellAt raw r c)) F.
Proof.
  intros le Hn.
  assert (K : forall d, In d dirs ->
                        inside targetH targetW (r + fst d) (c + snd d) = true ->
                        le (chan k (cellAt raw (r + fst d) (c + snd d)))
                           (chan k (cellAt raw r c))).
  { intros d Hd Hi. apply (Hn (r + fst d, c + snd d)%Z). unfold neighbors.
    apply filter_In. split; [| exact Hi].
    apply in_map_iff. exists d. split; [reflexivity | exact Hd]. }
  pose proof (K (-1, 0)%Z (or_introl eq_refl)) as K1.
  pose proof (K (1, 0)%Z (or_intror (or_introl eq_refl))) as K2.
  pose proof (K (0, -1)%Z (or_intror (or_intror (or_introl eq_refl)))) as K3.
  pose proof (K (0, 1)%Z (or_intror (or_intror (or_intror (or_introl eq_refl))))) as K4.
  cbn [fst snd] in K1, K2, K3, K4. clear K Hn.
  unfold sharpen, kernel_loop, dirs. cbn [fold_left fst snd].
  destruct (inside targetH targetW (r + -1) (c + 0));
    [specialize (K1 eq_refl) | clear K1];
    (destruct (inside targetH targetW (r + 1) (c + 0));
     [specialize (K2 eq_refl) | clear K2]);
    (destruct (inside targetH targetW (r + 0) (c + -1));
     [specialize (K3 eq_refl) | clear K3]);
    (destruct (inside targetH targetW (r + 0) (c + 1));
     [specialize (K4 eq_refl) | clear K4]);
    cbn [fst snd colR colG colB];
    destruct k; cbn [chan colR colG colB] in *;
    (eexists; split; [reflexivity |]);
    unfold le in *; destruct up; norm_of_Z;
    unfold weightCenter, weightEdge; cbn [add mul div Exact.rational];
    qc_q; unfold inject_Z in *;
    setoid_replace (22 * / 10)%Q with (11 # 5)%Q by reflexivity;
    setoid_replace (-3 * / 10)%Q with (-3 # 10)%Q by reflexivity;
    lra.
Qed.



(** ** The blocks and the crop *)

Lemma startX_exact (cw targetW c : Z) :
  (0 < targetW)%Z ->
  startX (N := Exact.rational) cw targetW c = (c * cw / targetW)%Z.
Proof. intros H. unfold startX, blockW. apply floor_mul_div, H. Qed.

Lemma endX_exact (cw targetW c : Z) :
  (0 < targetW)%Z ->
  endX (N := Exact.rational) cw targetW c =
  Z.min ((c + 1) * cw / targetW) cw.
Proof. intros H. unfold endX, blockW. rewrite floor_mul_div by exact H. reflexivity. Qed.

Lemma block_cover (cw targetW x : Z) :
  (0 < targetW)%Z -> (0 <= x < cw)%Z ->
  exists c, (0 <= c < targetW)%Z /\
            (startX (N := Exact.rational) cw targetW c <= x
               < endX (N := Exact.rational) cw targetW c)%Z.
Proof.
  intros HW Hx.
  assert (P : forall n : nat,
             (Z.of_nat n <= targetW)%Z -> (x < Z.of_nat n * cw / targetW)%Z ->
             exists c, (0 <= c < Z.of_nat n)%Z /\
                       (c * cw / targetW <= x < (c + 1) * cw / targetW)%Z).
  { induction n as [| n IH]; intros Hn Hlt.
    - change (Z.of_nat 0) with 0%Z in Hlt. rewrite Z.mul_0_l in Hlt.
      rewrite Z.div_0_l in Hlt by lia. lia.
    - destruct (Z_lt_le_dec x (Z.of_nat n * cw / targetW)) as [Hlo | Hhi].
      + destruct (IH ltac:(lia) Hlo) as (c & Hc & Hb). exists c. split; [lia | exact Hb].
      + exists (Z.of_nat n). split; [lia |].
        replace (Z.of_nat n + 1)%Z with (Z.of_nat (S n)) by lia. lia. }
  destruct (P (Z.to_nat targetW)) as (c & Hc & Hb).
  - lia.
  - rewrite Z2Nat.id by lia. rewrite Z.mul_comm, Z.div_mul by lia. lia.
  - exists c. rewrite startX_exact, endX_exact by exact HW. split; lia.
Qed.

Lemma block_unique (cw targetW x c c' : Z) :
  (0 < targetW)%Z -> (0 <= cw)%Z -> (0 <= c)%Z -> (0 <= c')%Z ->
  (startX (N := Exact.rational) cw targetW c <= x
     < endX (N := Exact.rational) cw targetW c)%Z ->
  (startX (N := Exact.rational) cw targetW c' <= x
     < endX (N := Exact.rational) cw targetW c')%Z ->
  c = c'.
Proof.
  intros HW Hcw Hc Hc'. rewrite !startX_exact, !endX_exact by exact HW.
  intros H1 H2.
  assert (M : forall a b, (0 <= a)%Z -> (a + 1 <= b)%Z ->
                          ((a + 1) * cw / targetW <= b * cw / targetW)%Z).
  { intros a b Ha Hab. apply Z.div_le_mono; [lia | nia]. }
  destruct (Z.lt_trichotomy c c') as [L | [E | G]]; [| exact E |].
  - pose proof (M c c' Hc ltac:(lia)). lia.
  - pose proof (M c' c Hc' ltac:(lia)). lia.
Qed.

(** X5: in exact arithmetic the blocks tile the floored crop: every pixel
    [(y, x)] of the [cw x ch] buffer lies in the block of exactly one cell of
    the grid, so each source pixel is averaged into one cell and no other.
    The doubles the program computes with can stop the last block short:
    for [cw = 61] and [targetW = 7] the seven blocks end at column 60, and
    the source column 60 is in no block. *)
Theorem blocks_tile_the_crop :
  (forall cw ch targetW targetH y x : Z,
      (0 < targetW)%Z -> (0 < targetH)%Z ->
      (0 <= y < ch)%Z -> (0 <= x < cw)%Z ->
      exists r c,
        ((0 <= r < targetH)%Z /\ (0 <= c < targetW)%Z /\
         In (y, x) (block_pixels (N := Exact.rational) cw ch targetW targetH r c)) /\
        forall r' c',
          (0 <= r')%Z -> (0 <= c')%Z ->
          In (y, x) (block_pixels (N := Exact.rational) cw ch targetW targetH r' c') ->
          r' = r /\ c' = c) /\
  map (fun c => (startX (N := Exact.rational) 61 7 c,
                 endX (N := Exact.rational) 61 7 c)) (zrange 0 7) =
    [(0, 8); (8, 17); (17, 26); (26, 34); (34, 43); (43, 52); (52, 61)]%Z /\
  map (fun c => (startX (N := IEEE.double) 61 7 c,
                 endX (N := IEEE.double) 61 7 c)) (zrange 0 7) =
    [(0, 8); (8, 17); (17, 26); (26, 34); (34, 43); (43, 52); (52, 60)]%Z.
Proof.
  split; [| split; vm_compute; reflexivity].
  intros cw ch targetW targetH y x HW HH Hy Hx.
  destruct (block_cover HW Hx) as (c & Hc & Hbx).
  destruct (block_cover HH Hy) as (r & Hr & Hby).
  change (startX ch targetH r) with (startY (N := Exact.rational) ch targetH r) in Hby.
  change (endX ch targetH r) with (endY (N := Exact.rational) ch targetH r) in Hby.
  exists r, c. split.
  - split; [exact Hr |]. split; [exact Hc |]. apply in_block_pixels. tauto.
  - intros r' c' Hr' Hc' Hin. apply in_block_pixels in Hin.
    destruct Hin as [Hy' Hx']. split.
    + apply (@block_unique ch targetH y r' r); try lia; assumption.
    + apply (@block_unique cw targetW x c' c); try lia; assumption.
Qed.

(** ** The scan of [drawPattern] on grids that are not rectangular *)

Lemma scan_step_none (cells : list ColorInfo) :
  fold_left scan_step cells None = None.
Proof. induction cells as [| x cells IH]; [reflexivity | exact IH]. Qed.

Section RowScan.
Variable row : list ColorInfo.

Let body (om : option StatsMap) (c : nat) : option StatsMap :=
  match om with
  | None => None
  | Some m =>
      match nth_error row c with
      | Some cell => scan_cell m cell
      | None => None
      end
  end.

Lemma row_scan_none (cs : list nat) : fold_left body cs None = None.
Proof. induction cs as [| c cs IH]; [reflexivity | exact IH]. Qed.

Lemma row_scan_prefix (k a : nat) (om : option StatsMap) :
  (a + k <= List.length row)%nat ->
  fold_left body (seq a k) om = fold_left scan_step (firstn k (skipn a row)) om.
Proof.
  revert a om. induction k as [| k IH]; intros a om H.
  - reflexivity.
  - cbn [seq fold_left].
    destruct (skipn a row) as [| x rest] eqn:E.
    + apply (f_equal (@List.length _)) in E. rewrite length_skipn in E.
      cbn in E. lia.
    + assert (Ex : nth_error row a = Some x).
      { rewrite <- (firstn_skipn a row), nth_error_app2, E
          by (rewrite length_firstn; lia).
        rewrite length_firstn.
        replace (a - Nat.min a (List.length row))%nat with 0%nat by lia.
        reflexivity. }
      assert (Er : skipn (S a) row = rest).
      { replace (S a) with (1 + a)%nat by reflexivity.
        rewrite <- skipn_skipn, E. reflexivity. }
      cbn [firstn fold_left]. rewrite <- Er, <- IH by lia.
      f_equal. unfold body. rewrite Ex. reflexivity.
Qed.

Lemma row_scan_full (cols : nat) (om : option StatsMap) :
  (cols <= List.length row)%nat ->
  fold_left body (seq 0 cols) om = fold_left scan_step (firstn cols row) om.
Proof. intros H. rewrite row_scan_prefix by lia. reflexivity. Qed.

Lemma row_scan_short (cols : nat) (om : option StatsMap) :
  (List.length row < cols)%nat -> fold_left body (seq 0 cols) om = None.
Proof.
  intros H.
  replace cols with (List.length row + S (cols - S (List.length row)))%nat by lia.
  rewrite seq_app, fold_left_app. cbn [seq fold_left Nat.add].
  destruct (fold_left body (seq 0 (List.length row)) om) as [m |].
  - unfold body at 2.
    rewrite (proj2 (nth_error_None row (List.length row)) (Nat.le_refl _)).
    apply row_scan_none.
  - apply row_scan_none.
Qed.
End RowScan.

Lemma grid_scan (cols : nat) (grid pre : list (list ColorInfo))
      (om : option StatsMap) :
  fold_left
    (fun om r =>
       fold_left
         (fun om c =>
            match om with
            | None => None
            | Some m =>
                match nth_error (nth r (pre ++ grid) []) c with
                | Some cell => scan_cell m cell
                | None => None
                end
            end)
         (seq 0 cols) om)
    (seq (List.length pre) (List.length grid)) om =
  if forallb (fun row => cols <=? List.length row)%nat grid
  then fold_left scan_step (concat (map (firstn cols) grid)) om
  else None.
Proof.
  revert pre om. induction grid as [| row grid IH]; intros pre om.
  - reflexivity.
  - cbn [List.length seq fold_left forallb map concat].
    rewrite app_nth2 by apply Nat.le_refl. rewrite Nat.sub_diag. cbn [nth].
    specialize (IH (pre ++ [row])). rewrite <- app_assoc in IH. cbn [app] in IH.
    rewrite length_app in IH. cbn [List.length] in IH.
    rewrite Nat.add_1_r in IH. rewrite IH.
    destruct (Nat.leb_spec cols (List.length row)) as [Hle | Hlt].
    + rewrite row_scan_full by exact Hle. cbn [andb].
      rewrite fold_left_app. reflexivity.
    + rewrite row_scan_short by exact Hlt. cbn [andb].
      destruct (forallb _ grid); [apply scan_step_none | reflexivity].
Qed.

Lemma scan_grid_cases (row0 : list ColorInfo) (rest : list (list ColorInfo)) :
  scan_grid (row0 :: rest) =
  if forallb (fun row => List.length row0 <=? List.length row)%nat rest
  then Some (fold_left bump (concat (trimmed (row0 :: rest))) [])
  else None.
Proof.
  unfold scan_grid.
  pose proof (@grid_scan (List.length row0) (row0 :: rest) [] (Some [])) as G.
  cbn [app List.length] in G. cbn [List.length]. rewrite G.
  cbn [forallb]. rewrite Nat.leb_refl. cbn [andb].
  destruct (forallb _ rest); [| reflexivity].
  unfold trimmed. cbn [hd]. apply scan_step_bump.
Qed.

Lemma trimmed_rectangular {A : Type} (grid : list (list A)) :
  grid <> [] ->
  Forall (fun row => List.length (hd [] grid) <= List.length row)%nat grid ->
  Forall (fun row => List.length row = List.length (hd [] grid)) (trimmed grid) /\
  List.length (hd [] (trimmed grid)) = List.length (hd [] grid).
Proof.
  intros Hne H. split.
  - unfold trimmed. apply Forall_forall. intros row Hrow.
    apply in_map_iff in Hrow. destruct Hrow as [row' [<- Hin]].
    rewrite length_firstn.
    pose proof (proj1 (Forall_forall _ _) H row' Hin) as Hle.
    cbn beta in Hle. lia.
  - destruct grid as [| row0 rest]; [congruence |].
    unfold trimmed. cbn [hd map]. rewrite firstn_all. reflexivity.
Qed.

Lemma trimmed_cons {A : Type} (row0 : list A) (rest : list (list A)) :
  trimmed (row0 :: rest) = row0 :: map (firstn (List.length row0)) rest.
Proof. unfold trimmed. cbn [hd map]. rewrite firstn_all. reflexivity. Qed.

Lemma trimmed_idem {A : Type} (grid : list (list A)) :
  trimmed (trimmed grid) = trimmed grid.
Proof.
  destruct grid as [| row0 rest]; [reflexivity |].
  rewrite trimmed_cons, trimmed_cons. f_equal. rewrite map_map.
  apply map_ext. intros a. rewrite firstn_firstn, Nat.min_id. reflexivity.
Qed.

(** X6: the scan of [drawPattern] takes the width of the grid from its first
    row.  It ends in a TypeError ([None]) exactly when the grid is empty or
    some row is shorter than the first; otherwise the cells of a longer row
    beyond that width are never read: the legend is that of the grid cut to
    the width of its first row. *)
Theorem legend_exists_iff_no_short_row (grid : list (list ColorInfo)) :
  (stats grid = None <->
   grid = [] \/
   Exists (fun row => List.length row < List.length (hd [] grid))%nat grid) /\
  (stats grid <> None -> stats grid = stats (trimmed grid)).
Proof.
  destruct grid as [| row0 rest].
  - split; [split; [left; reflexivity | reflexivity] | intros H; elim H; reflexivity].
  - assert (Est : stats (row0 :: rest) =
                 if forallb (fun row => List.length row0 <=? List.length row)%nat rest
                 then Some (js_sort by_count_desc
                              (values (fold_left bump
                                         (concat (trimmed (row0 :: rest))) [])))
                 else None).
    { unfold stats. rewrite scan_grid_cases. destruct (forallb _ rest); reflexivity. }
    cbn [hd].
    destruct (forallb (fun row => List.length row0 <=? List.length row)%nat rest)
      eqn:E.
    + rewrite Est. split.
      * split; [discriminate |]. intros [H | H]; [discriminate |].
        exfalso. apply Exists_exists in H. destruct H as (row & Hin & Hlt).
        destruct Hin as [<- | Hin]; [lia |].
        pose proof (proj1 (forallb_forall _ _) E row Hin) as Hle.
        apply Nat.leb_le in Hle. lia.
      * intros _. rewrite trimmed_cons. unfold stats.
        rewrite scan_grid_cases, <- trimmed_cons, trimmed_idem.
        replace (forallb _ (map (firstn (List.length row0)) rest)) with true;
          [reflexivity |].
        symmetry. apply forallb_forall. intros row Hrow.
        apply in_map_iff in Hrow. destruct Hrow as [row' [<- Hin]].
        pose proof (proj1 (forallb_forall _ _) E row' Hin) as Hle.
        apply Nat.leb_le in Hle. apply Nat.leb_le.
        rewrite length_firstn. lia.
    + rewrite Est. split; [| intros H; elim H; reflexivity].
      split; [| reflexivity]. intros _. right.
      apply Exists_cons_tl. apply Exists_exists.
      assert (X : exists row, In row rest /\
                              (List.length row0 <=? List.length row)%nat = false).
      { clear -E. induction rest as [| a rest IH]; [discriminate |].
        cbn [forallb] in E. apply andb_false_iff in E. destruct E as [E | E].
        - exists a. split; [left; reflexivity | exact E].
        - destruct (IH E) as (row & Hin & Hf). exists row. split; [right |]; assumption. }
      destruct X as (row & Hin & Hf). exists row. split; [exact Hin |].
      apply Nat.leb_gt in Hf. exact Hf.
Qed.

(** ** The colour of a legend entry *)

Lemma first_cell_app (k : string) (l l' : list ColorInfo) :
  first_cell k (l ++ l') =
  match first_cell k l with
  | Some x => Some x
  | None => first_cell k l'
  end.
Proof.
  unfold first_cell. induction l as [| a l IH]; cbn [app find].
  - reflexivity.
  - destruct (String.eqb (code a) k); [reflexivity | exact IH].
Qed.

Lemma first_cell_absent (k : string) (l : list ColorInfo) :
  ~ In k (map code l) -> first_cell k l = None.
Proof.
  unfold first_cell. induction l as [| a l IH]; cbn [map In find]; intros H.
  - reflexivity.
  - destruct (String.eqb_spec (code a) k) as [E | E]; [tauto |].
    apply IH. tauto.
Qed.

Lemma shows_first_bump (m : StatsMap) (cells : list ColorInfo) (cell : ColorInfo) :
  tallied m (map code cells) -> shows_first m cells ->
  shows_first (bump m cell) (cells ++ [cell]).
Proof.
  intros Ht Hs k s Hin.
  assert (Old : forall k s, In (k, s) m ->
                            first_cell k (cells ++ [cell]) = Some (color s)).
  { intros k0 s0 H0. rewrite first_cell_app, (Hs k0 s0 H0). reflexivity. }
  destruct (in_dec string_dec (code cell) (keys m)) as [Hk | Hk].
  - destruct (bump_present m cell Hk) as (A & s0 & B & Em & _ & Eb).
    rewrite Eb in Hin. apply in_app_or in Hin.
    destruct Hin as [Hin | [Hin | Hin]].
    + apply Old. rewrite Em. apply in_or_app. left. exact Hin.
    + inversion Hin; subst k s. cbn [color].
      apply Old. rewrite Em. apply in_or_app. right. left. reflexivity.
    + apply Old. rewrite Em. apply in_or_app. right. right. exact Hin.
  - rewrite bump_absent in Hin by exact Hk. apply in_app_or in Hin.
    destruct Hin as [Hin | [Hin | []]].
    + apply Old. exact Hin.
    + inversion Hin; subst k s. cbn [color].
      rewrite first_cell_app, first_cell_absent
        by (rewrite <- (tl_keys Ht); exact Hk).
      unfold first_cell. cbn [find]. rewrite String.eqb_refl. reflexivity.
Qed.

Lemma shows_first_fold (todo done : list ColorInfo) (m : StatsMap) :
  tallied m (map code done) -> shows_first m done ->
  shows_first (fold_left bump todo m) (done ++ todo).
Proof.
  revert done m. induction todo as [| cell todo IH]; intros done m Ht Hs.
  - cbn [fold_left]. rewrite app_nil_r. exact Hs.
  - cbn [fold_left].
    replace (done ++ cell :: todo) with ((done ++ [cell]) ++ todo)
      by (rewrite <- app_assoc; reflexivity).
    apply IH.
    + rewrite map_app. apply tallied_bump, Ht.
    + apply shows_first_bump; assumption.
Qed.

(** X7: for every non-empty rectangular grid, the colour kept with a legend
    entry, the one its swatch is painted with, is that of the first cell of
    the grid, in row-major order, that has the entry's code. *)
Theorem legend_swatch_is_first_cell (grid : list (list ColorInfo)) :
  rectangular grid ->
  exists legend,
    stats grid = Some legend /\
    Forall (fun s => first_cell (scode s) (concat grid) = Some (color s)) legend.
Proof.
  intros H. exists (js_sort by_count_desc (values (fold_left bump (concat grid) []))).
  split.
  - unfold stats. rewrite scan_grid_tally by exact H. reflexivity.
  - pose proof (@tallied_fold (concat grid) [] [] tallied_nil) as Ht.
    cbn [app] in Ht.
    pose proof (@shows_first_fold (concat grid) [] [] tallied_nil
                  (fun k s (F : In (k, s) []) => match F with end)) as Hs.
    cbn [app] in Hs.
    apply Forall_forall. intros s Hin.
    apply (Permutation_in _ (js_sort_perm by_count_desc _)) in Hin.
    unfold values in Hin. apply in_map_iff in Hin. destruct Hin as [[k s'] [E He]].
    cbn [snd] in E. subst s'.
    pose proof (proj1 (Forall_forall _ _) (tl_entry Ht) _ He) as [Ek _].
    cbn [fst snd] in Ek. rewrite Ek. apply (Hs k s He).
Qed.

Lemma legend_swatch_is_first_cell_witness :
  rectangular small_grid /\
  exists legend,
    stats small_grid = Some legend /\
    Forall (fun s => first_cell (scode s) (concat small_grid) = Some (color s))
           legend.
Proof.
  assert (H : rectangular small_grid).
  { split; [discriminate |]. repeat constructor. }
  split; [exact H |]. exact (legend_swatch_is_first_cell H).
Defined.

(** ** Text colour and guide lines *)

Lemma of_Z_add (a b : Z) : (of_Z (a + b) : Qc) = of_Z a + of_Z b.
Proof. qc_eq. rewrite inject_Z_plus. reflexivity. Qed.

Lemma of_Z_mul (a b : Z) : (of_Z (a * b) : Qc) = of_Z a * of_Z b.
Proof. qc_eq. rewrite inject_Z_mult. reflexivity. Qed.

Lemma of_Z_lt_iff (a b : Z) : (of_Z a : Qc) < of_Z b <-> (a < b)%Z.
Proof. unfold Qclt. rewrite !this_of_Z, <- Zlt_Qlt. reflexivity. Qed.

Lemma of_Z_le_iff (a b : Z) : (of_Z a : Qc) <= of_Z b <-> (a <= b)%Z.
Proof. unfold Qcle. rewrite !this_of_Z, <- Zle_Qle. reflexivity. Qed.

Lemma luminance_exact (r g b : Z) :
  getLuminance (N := Exact.rational) (of_Z r) (of_Z g) (of_Z b) =
  of_Z (299 * r + 587 * g + 114 * b) / of_Z 1000.
Proof.
  unfold getLuminance. cbn [add mul div Exact.rational].
  rewrite !of_Z_add, !of_Z_mul. field. discriminate.
Qed.

Lemma Q_div_1000_lt (x y : Q) : (x < y / 1000 <-> x * 1000 < y)%Q.
Proof.
  split; intros H.
  - setoid_replace y with (y / 1000 * 1000)%Q by (field; discriminate).
    apply Qmult_lt_r; [reflexivity | exact H].
  - apply Qlt_shift_div_l; [reflexivity | exact H].
Qed.

Lemma div_1000_lt (a b : Z) :
  (of_Z a : Qc) < of_Z b / of_Z 1000 <-> (1000 * a < b)%Z.
Proof.
  rewrite <- of_Z_lt_iff, of_Z_mul.
  generalize (of_Z a : Qc) (of_Z b : Qc). intros x y.
  qc_q. unfold inject_Z. fold (Qdiv y 1000). rewrite Q_div_1000_lt.
  split; intros H; lra.
Qed.

(** X8: in exact arithmetic the three weights of [getLuminance] add up to 1,
    so a grey [(v, v, v)] has luminance [v] and the luminance of any colour
    lies between its smallest and its largest channel; the code of a cell is
    written dark exactly when 299 r + 587 g + 114 b > 128000, and white
    otherwise.  In doubles, white cells get dark text, black cells white
    text, and the mid grey 128 (luminance 127.99999999999999) white text. *)
Theorem luminance_and_text_color :
  (forall v : Z,
      getLuminance (N := Exact.rational) (of_Z v) (of_Z v) (of_Z v) = of_Z v) /\
  (forall lo hi r g b : Z,
      (lo <= r <= hi)%Z -> (lo <= g <= hi)%Z -> (lo <= b <= hi)%Z ->
      of_Z lo <= getLuminance (N := Exact.rational) (of_Z r) (of_Z g) (of_Z b) /\
      getLuminance (N := Exact.rational) (of_Z r) (of_Z g) (of_Z b) <= of_Z hi) /\
  (forall r g b : Z,
      text_color (N := Exact.rational) (r, g, b) =
      if (128000 <? 299 * r + 587 * g + 114 * b)%Z then gray900 else whiteText) /\
  text_color (N := IEEE.double) (255, 255, 255)%Z = gray900 /\
  text_color (N := IEEE.double) (0, 0, 0)%Z = whiteText /\
  text_color (N := IEEE.double) (128, 128, 128)%Z = whiteText.
Proof.
  split; [| split; [| split; [| repeat split]]].
  - intros v. rewrite luminance_exact.
    replace (299 * v + 587 * v + 114 * v)%Z with (v * 1000)%Z by lia.
    rewrite of_Z_mul. cbn [div Exact.rational]. field. discriminate.
  - intros lo hi r g b Hr Hg Hb. rewrite luminance_exact.
    set (e := (299 * r + 587 * g + 114 * b)%Z).
    assert (L : (1000 * lo <= e)%Z) by (unfold e; lia).
    assert (U : (e <= 1000 * hi)%Z) by (unfold e; lia).
    apply of_Z_le_iff in L. apply of_Z_le_iff in U.
    rewrite of_Z_mul in L, U.
    revert L U. generalize (of_Z lo : Qc) (of_Z hi : Qc) (of_Z e : Qc).
    intros x y z L U. cbn [div Exact.rational].
    split; qc_q; unfold inject_Z in *.
    + apply Qle_shift_div_l; [reflexivity | lra].
    + apply Qle_shift_div_r; [reflexivity | lra].
  - intros r g b. unfold text_color. rewrite luminance_exact.
    cbn [ltb Exact.rational].
    destruct (Z.ltb_spec 128000 (299 * r + 587 * g + 114 * b)) as [H | H].
    + replace (Exact.Qcltb _ _) with true; [reflexivity |].
      symmetry. apply Qcltb_lt. apply div_1000_lt. exact H.
    + replace (Exact.Qcltb _ _) with false; [reflexivity |].
      symmetry. apply not_true_is_false. intros K.
      apply Qcltb_lt in K. apply div_1000_lt in K. lia.
Qed.

(** ** Guide lines and bold labels *)

Lemma thick_from_spec (cols : Z) (fuel : nat) (c x : Z) :
  (cols - c <= 10 * Z.of_nat fuel)%Z ->
  In x (thick_from fuel c cols) <->
  (c <= x < cols)%Z /\ ((x - c) mod 10 = 0)%Z.
Proof.
  revert c. induction fuel as [| fuel IH]; intros c Hf; cbn [thick_from].
  - split; [intros [] | lia].
  - destruct (Z.ltb_spec c cols) as [Hlt | Hge].
    + cbn [In]. rewrite IH by lia. Z.div_mod_to_equations. lia.
    + split; [intros [] | lia].
Qed.

(** X9: the loop of the thick lines draws one before column [x] exactly for
    the multiples of 10 strictly between 0 and [cols].  So, for every column
    [c] but the last, a thick line separates it from the next exactly when
    its label [c + 1] is written bold; the edge of the grid and a label of the
    last column never get one from this loop. *)
Theorem thick_lines_follow_bold_labels (cols : Z) :
  (forall x, In x (thick_columns cols) <->
             (0 < x < cols)%Z /\ (x mod 10 = 0)%Z) /\
  (forall c, (0 <= c)%Z -> (c + 1 < cols)%Z ->
             (isTen c = true <-> In (label c) (thick_columns cols))) /\
  (forall c, (cols <= c + 1)%Z -> ~ In (label c) (thick_columns cols)).
Proof.
  assert (S : forall x, In x (thick_columns cols) <->
                        (0 < x < cols)%Z /\ (x mod 10 = 0)%Z).
  { intros x. unfold thick_columns. rewrite thick_from_spec by lia.
    Z.div_mod_to_equations. lia. }
  split; [exact S |]. split.
  - intros c H0 H1. rewrite S. unfold isTen, label. rewrite Z.eqb_eq. lia.
  - intros c H. rewrite S. unfold label. lia.
Qed.


(** ** The chart on its canvas *)

Lemma floor_div_exact (a b : Z) :
  (0 < b)%Z -> floorZ (div (of_Z a) (of_Z b) : Qc) = (a / b)%Z.
Proof.
  intros H. cbn [floorZ div of_Z Exact.rational].
  assert (E : (this (Q2Qc (inject_Z a) / Q2Qc (inject_Z b))
               == a # (Z.to_pos b))%Q).
  { qc_q. rewrite (Qmake_Qdiv a). rewrite Z2Pos.id by exact H. reflexivity. }
  rewrite E. cbn [Qfloor]. rewrite Z2Pos.id by exact H. reflexivity.
Qed.

Lemma ceil_div_exact (a b : Z) :
  (0 < b)%Z -> ceilZ (div (of_Z a) (of_Z b) : Qc) = (- (- a / b))%Z.
Proof.
  intros H. unfold ceilZ. f_equal. rewrite <- (floor_div_exact (- a) H).
  cbn [floorZ div sub of_Z Exact.rational].
  apply Qfloor_comp. qc_q. rewrite inject_Z_opp.
  change (inject_Z 0) with 0%Q. field.
  change 0%Q with (inject_Z 0). rewrite inject_Z_injective. lia.
Qed.

Lemma maxn_exact (a b : Qc) : a <= maxn a b /\ b <= maxn a b.
Proof.
  cbn [maxn Exact.rational]. unfold Exact.Qcmax'.
  destruct (Exact.Qcltb a b) eqn:E.
  - apply Qcltb_lt in E. split; [apply Qclt_le_weak, E | apply Qcle_refl].
  - apply Qcltb_ge in E. split; [apply Qcle_refl | exact E].
Qed.

Lemma of_Z_floor_le (q : Qc) : of_Z (floorZ q) <= q.
Proof.
  cbn [floorZ Exact.rational]. unfold Qcle. rewrite this_of_Z.
  apply Qfloor_le.
Qed.

Lemma mul_of_Z_le (a b : Z) (t : Qc) :
  (a <= b)%Z -> 0 <= t -> of_Z a * t <= of_Z b * t.
Proof. intros H Ht. apply Qcmult_le_compat_r; [apply of_Z_le, H | exact Ht]. Qed.

Lemma step_of_Z_le (a b : Z) (t : Qc) :
  (a + 1 <= b)%Z -> 0 <= t -> of_Z a * t + t <= of_Z b * t.
Proof.
  intros H Ht. pose proof (mul_of_Z_le H Ht) as K.
  rewrite of_Z_add in K.
  replace (of_Z a * t + t) with ((of_Z a + of_Z 1) * t); [exact K |].
  change (of_Z 1 : Qc) with (1 : Qc). ring.
Qed.

Lemma zero_of_Z_le (a : Z) (t : Qc) : (0 <= a)%Z -> 0 <= t -> 0 <= of_Z a * t.
Proof.
  intros H Ht. pose proof (mul_of_Z_le H Ht) as K.
  replace (of_Z 0 * t) with (0 : Qc) in K; [exact K |].
  change (of_Z 0 : Qc) with (0 : Qc). ring.
Qed.

Lemma cell_rows (cellSize margin : Qc) (rows r : Z) :
  0 < cellSize ->
  (0 <= r < rows)%Z ->
  margin <= cellTop cellSize margin r /\
  cellTop cellSize margin r + cellSize <= margin + gridHeight cellSize rows.
Proof.
  intros cell_pos Hr.
  assert (P : 0 <= cellSize) by (apply Qclt_le_weak, cell_pos).
  pose proof (zero_of_Z_le (proj1 Hr) P) as A0.
  assert (A1 : of_Z r * cellSize + cellSize <= of_Z rows * cellSize)
    by (apply step_of_Z_le; [lia | exact P]).
  unfold cellTop, offsetY, gridHeight.
  cbn [add sub mul div Exact.rational].
  revert A0 A1.
  generalize (of_Z r * cellSize) (of_Z rows * cellSize).
  generalize cellSize. clear. intros s a g A0 A1.
  split; qc_lra.
Qed.

Section LayoutFacts.
Variables (cellSize margin : Qc) (rows cols n : Z).
Hypothesis cell_pos : 0 < cellSize.

Let W : Qc := statItemWidth cellSize.
Let m : Z := maxStatsPerRow cellSize cols.
Let gw : Qc := gridWidth cellSize cols.
Let cw : Qc := canvasWidth cellSize margin cols.

Lemma item_width_pos : of_Z 120 <= W.
Proof. unfold W, statItemWidth. apply maxn_exact. Qed.

Lemma per_row_pos : (1 <= m)%Z.
Proof. unfold m, maxStatsPerRow. lia. Qed.

(** A full row of legend items, without the last spacing, is no wider than
    the canvas less its two margins. *)
Lemma full_row_fits :
  of_Z m * (W + of_Z 20) - of_Z 20 <= cw - margin * of_Z 2.
Proof.
  pose proof item_width_pos as HW.
  assert (C1 : gw + margin * of_Z 2 <= cw)
    by (unfold cw, canvasWidth, gw; apply maxn_exact).
  assert (C2 : W + margin * of_Z 2 <= cw)
    by (unfold cw, canvasWidth, W; apply maxn_exact).
  assert (P : 0 < W + of_Z 20)
    by (revert HW; generalize W; clear; intros w Hw; qc_lra).
  unfold m, maxStatsPerRow. fold gw. fold W. unfold statSpacingX.
  cbn [add div Exact.rational].
  destruct (Z.max_spec 1 (floorZ (gw / (W + of_Z 20)))) as [[_ ->] | [_ ->]].
  - assert (K : of_Z (floorZ (gw / (W + of_Z 20))) * (W + of_Z 20) <= gw).
    { replace gw with (gw / (W + of_Z 20) * (W + of_Z 20)) at 2
        by (field; apply not_eq_sym, Qclt_not_eq; exact P).
      apply Qcmult_le_compat_r;
        [apply of_Z_floor_le | apply Qclt_le_weak, P]. }
    clear P C2 HW. revert K C1.
    generalize (of_Z (floorZ (gw / (W + of_Z 20))) * (W + of_Z 20)).
    generalize gw cw. intros g c0 k K C1. qc_lra.
  - clear P C1. revert C2 HW. generalize W cw. intros w c0 C2 HW. qc_lra.
Qed.

Lemma stat_col_range (i : Z) :
  (0 <= i < n)%Z ->
  (0 <= statCol cellSize cols i <= Z.min n m - 1)%Z.
Proof.
  intros Hi. pose proof per_row_pos as Hm. unfold statCol. fold m.
  pose proof (Z.mod_pos_bound i m ltac:(lia)) as B.
  destruct (Z_lt_le_dec n m) as [L | L].
  - rewrite Z.mod_small by lia. lia.
  - lia.
Qed.

Lemma stat_row_exact (i : Z) : statRow cellSize cols i = (i / m)%Z.
Proof.
  pose proof per_row_pos as Hm. unfold statRow. fold m.
  apply floor_div_exact. lia.
Qed.

Lemma stat_row_range (i : Z) :
  (0 <= i < n)%Z ->
  (0 <= statRow cellSize cols i <= statsRows cellSize cols n - 1)%Z.
Proof.
  intros Hi. pose proof per_row_pos as Hm. rewrite stat_row_exact.
  unfold statsRows. fold m. rewrite ceil_div_exact by lia.
  split; [apply Z.div_pos; lia |].
  assert (K : (i / m < - (- n / m))%Z).
  { apply Z.div_lt_upper_bound; [lia |].
    pose proof (Z.mul_div_le (- n) m ltac:(lia)). lia. }
  lia.
Qed.

(** Where the legend starts and ends, horizontally. *)
Lemma legend_span (i : Z) :
  (0 <= i < n)%Z ->
  margin <= statLeft cellSize margin cols n i /\
  statLeft cellSize margin cols n i + W <= cw - margin.
Proof.
  intros Hi. pose proof item_width_pos as HW. pose proof full_row_fits as FR.
  pose proof (stat_col_range Hi) as [C0 C1].
  assert (P : 0 <= W + of_Z 20)
    by (revert HW; generalize W; clear; intros w Hw; qc_lra).
  pose proof (zero_of_Z_le C0 P) as A0.
  assert (A1 : of_Z (statCol cellSize cols i) * (W + of_Z 20) + (W + of_Z 20)
               <= of_Z (Z.min n m) * (W + of_Z 20))
    by (apply step_of_Z_le; [lia | exact P]).
  assert (A2 : of_Z (Z.min n m) * (W + of_Z 20) <= of_Z m * (W + of_Z 20))
    by (apply mul_of_Z_le; [lia | exact P]).
  unfold statLeft, statsOffsetX, actualStatsWidth, statSpacingX.
  fold (canvasWidth cellSize margin cols). fold cw. fold m. fold W.
  cbn [add sub mul div Exact.rational].
  revert A0 A1 A2 FR HW.
  generalize (of_Z (statCol cellSize cols i) * (W + of_Z 20))
             (of_Z (Z.min n m) * (W + of_Z 20))
             (of_Z m * (W + of_Z 20)).
  generalize W cw. clear. intros w c0 a b d A0 A1 A2 FR HW.
  split; qc_q; unfold inject_Z in *.
  - setoid_replace ((c0 + - (b + - (20))) * / 2)%Q
      with ((c0 - b + 20) / 2)%Q by field.
    assert ((margin <= (c0 - b + 20) / 2)%Q)
      by (apply Qle_shift_div_l; [reflexivity | lra]).
    lra.
  - setoid_replace ((c0 + - (b + - (20))) * / 2)%Q
      with ((c0 - b + 20) / 2)%Q by field.
    assert (((c0 - b + 20) / 2 <= c0 - margin - b + 20)%Q)
      by (apply Qle_shift_div_r; [reflexivity | lra]).
    lra.
Qed.

Lemma legend_rows (i : Z) :
  (0 <= i < n)%Z ->
  statsStartY cellSize margin rows <= statTop cellSize margin rows cols i /\
  statTop cellSize margin rows cols i + cellSize + of_Z 20 + margin
    <= canvasHeight cellSize margin rows cols n.
Proof.
  intros Hi. pose proof (stat_row_range Hi) as [R0 R1].
  assert (P : 0 <= cellSize + of_Z 20)
    by (revert cell_pos; generalize cellSize; clear; intros s Hs; qc_lra).
  pose proof (zero_of_Z_le R0 P) as A0.
  assert (A1 : of_Z (statRow cellSize cols i) * (cellSize + of_Z 20)
               + (cellSize + of_Z 20)
               <= of_Z (statsRows cellSize cols n) * (cellSize + of_Z 20))
    by (apply step_of_Z_le; [lia | exact P]).
  unfold statTop, canvasHeight, statsSectionHeight, statsStartY, offsetY,
    statItemHeight, statSpacingY.
  cbn [add sub mul div Exact.rational].
  revert A0 A1.
  generalize (of_Z (statRow cellSize cols i) * (cellSize + of_Z 20))
             (of_Z (statsRows cellSize cols n) * (cellSize + of_Z 20))
             (gridHeight cellSize rows).
  generalize cellSize. clear. intros s a b gh A0 A1.
  split; qc_q; unfold inject_Z in *.
  - lra.
  - setoid_replace (3 * / 2)%Q with (3 # 2)%Q by reflexivity.
    setoid_replace (5 * / 2)%Q with (5 # 2)%Q by reflexivity.
    lra.
Qed.

Lemma cell_span (c : Z) :
  (0 <= c < cols)%Z ->
  margin <= cellLeft cellSize margin cols c /\
  cellLeft cellSize margin cols c + cellSize <= cw - margin.
Proof.
  intros Hc.
  assert (P : 0 <= cellSize) by (apply Qclt_le_weak, cell_pos).
  pose proof (zero_of_Z_le (proj1 Hc) P) as A0.
  assert (A1 : of_Z c * cellSize + cellSize <= of_Z cols * cellSize)
    by (apply step_of_Z_le; [lia | exact P]).
  assert (C1 : gw + margin * of_Z 2 <= cw)
    by (unfold cw, canvasWidth, gw; apply maxn_exact).
  unfold cellLeft, offsetX. fold (canvasWidth cellSize margin cols).
  fold cw. unfold gw, gridWidth in *.
  cbn [add sub mul div Exact.rational] in *.
  revert A0 A1 C1.
  generalize (of_Z c * cellSize) (of_Z cols * cellSize).
  generalize cellSize cw. clear. intros s c0 a g A0 A1 C1.
  split; qc_q; unfold inject_Z in *.
  - setoid_replace ((c0 + - g) * / 2)%Q with ((c0 - g) / 2)%Q by field.
    assert ((margin <= (c0 - g) / 2)%Q)
      by (apply Qle_shift_div_l; [reflexivity | lra]).
    lra.
  - setoid_replace ((c0 + - g) * / 2)%Q with ((c0 - g) / 2)%Q by field.
    assert (((c0 - g) / 2 <= c0 - margin - g)%Q)
      by (apply Qle_shift_div_r; [reflexivity | lra]).
    lra.
Qed.

Lemma legend_apart (i j : Z) :
  (0 <= i < j)%Z -> (j < n)%Z ->
  (statRow cellSize cols i = statRow cellSize cols j /\
   statLeft cellSize margin cols n i + W + of_Z 20
     <= statLeft cellSize margin cols n j) \/
  ((statRow cellSize cols i < statRow cellSize cols j)%Z /\
   statTop cellSize margin rows cols i + cellSize + of_Z 20
     <= statTop cellSize margin rows cols j).
Proof.
  intros Hij Hj. pose proof per_row_pos as Hm.
  pose proof item_width_pos as HW.
  rewrite !stat_row_exact.
  assert (Hle : (i / m <= j / m)%Z) by (apply Z.div_le_mono; lia).
  destruct (Z.eq_dec (i / m) (j / m)) as [E | NE].
  - left. split; [exact E |].
    assert (Hc : (statCol cellSize cols i + 1 <= statCol cellSize cols j)%Z).
    { unfold statCol. fold m. rewrite !Z.mod_eq by lia. nia. }
    assert (P : 0 <= W + of_Z 20)
      by (revert HW; generalize W; clear; intros w Hw; qc_lra).
    pose proof (@step_of_Z_le _ _ _ Hc P) as A1.
    unfold statLeft. cbn [add sub mul div Exact.rational].
    unfold statSpacingX. fold W.
    revert A1.
    generalize (of_Z (statCol cellSize cols i) * (W + of_Z 20))
               (of_Z (statCol cellSize cols j) * (W + of_Z 20))
               (statsOffsetX cellSize margin cols n).
    generalize W. clear. intros w a b o A1. qc_lra.
  - right. split; [lia |].
    assert (Hr : (statRow cellSize cols i + 1 <= statRow cellSize cols j)%Z)
      by (rewrite !stat_row_exact; lia).
    assert (P : 0 <= cellSize + of_Z 20)
      by (revert cell_pos; generalize cellSize; clear; intros s Hs; qc_lra).
    pose proof (@step_of_Z_le _ _ _ Hr P) as A1.
    unfold statTop. cbn [add sub mul div Exact.rational].
    unfold statItemHeight, statSpacingY.
    revert A1.
    generalize (of_Z (statRow cellSize cols i) * (cellSize + of_Z 20))
               (of_Z (statRow cellSize cols j) * (cellSize + of_Z 20))
               (statsStartY cellSize margin rows).
    generalize cellSize. clear. intros s a b o A1. qc_lra.
Qed.
End LayoutFacts.

(** X10: With a positive cell size, in exact arithmetic, every cell of the
    chart and every legend slot lies inside the canvas, at least one margin
    away from its left, right and top edges: the cells of column [c] span
    from [cellLeft c] to at most [canvasWidth - margin]; the cells of row [r]
    lie between the top margin and the bottom of the grid; the legend starts
    below the grid when the margin is not negative; the slot of legend item
    [i] (of width [statItemWidth], which holds the swatch of width
    [cellSize]) stays between the side margins; and the bottom of every
    legend row, with its spacing and one margin, is within the canvas
    height. *)
Theorem chart_fits_canvas (cellSize margin : Qc) (rows cols n : Z) :
  0 < cellSize ->
  (forall r c, (0 <= r < rows)%Z -> (0 <= c < cols)%Z ->
     margin <= cellLeft cellSize margin cols c /\
     cellLeft cellSize margin cols c + cellSize
       <= canvasWidth cellSize margin cols - margin /\
     margin <= cellTop cellSize margin r /\
     cellTop cellSize margin r + cellSize
       <= margin + gridHeight cellSize rows) /\
  (0 <= margin ->
   margin + gridHeight cellSize rows <= statsStartY cellSize margin rows) /\
  cellSize <= statItemWidth cellSize /\
  (forall i, (0 <= i < n)%Z ->
     margin <= statLeft cellSize margin cols n i /\
     statLeft cellSize margin cols n i + statItemWidth cellSize
       <= canvasWidth cellSize margin cols - margin /\
     statsStartY cellSize margin rows
       <= statTop cellSize margin rows cols i /\
     statTop cellSize margin rows cols i + cellSize + of_Z 20 + margin
       <= canvasHeight cellSize margin rows cols n).
Proof.
  intros Hs. split; [| split; [| split]].
  - intros r c Hr Hc.
    destruct (@cell_span cellSize margin cols Hs c Hc) as [A B].
    destruct (@cell_rows cellSize margin rows r Hs Hr) as [C D].
    repeat split; assumption.
  - intros Hm. unfold statsStartY, offsetY. cbn [add sub mul div Exact.rational].
    revert Hm. generalize (gridHeight cellSize rows) margin. clear.
    intros g mg Hm. qc_q; unfold inject_Z in *.
    setoid_replace (3 * / 2)%Q with (3 # 2)%Q by reflexivity. lra.
  - pose proof (maxn_exact (of_Z 120) (cellSize * of_Z 3)) as [_ K].
    unfold statItemWidth. cbn [add sub mul div Exact.rational].
    revert K Hs. generalize (maxn (of_Z 120) (cellSize * of_Z 3)).
    generalize cellSize. clear. intros s w K Hs. qc_lra.
  - intros i Hi.
    destruct (@legend_span cellSize margin cols n Hs i Hi) as [A B].
    destruct (@legend_rows cellSize margin rows cols n Hs i Hi) as [C D].
    repeat split; assumption.
Qed.

Lemma chart_fits_canvas_witness :
  (0 : Qc) < of_Z 40 /\
  statLeft (of_Z 40 : Qc) (of_Z 60) 29 5 4 + statItemWidth (of_Z 40 : Qc)
    <= canvasWidth (of_Z 40 : Qc) (of_Z 60) 29 - of_Z 60.
Proof.
  assert (H0 : (0 : Qc) < of_Z 40) by reflexivity.
  split; [exact H0 |].
  refine (proj1 (proj2 (proj2 (proj2 (proj2
    (@chart_fits_canvas (of_Z 40) (of_Z 60) 29 29 5 H0)))
    4%Z _))).
  lia.
Defined.

(** X11: With a positive cell size, in exact arithmetic, two different legend
    items never share a slot: the later one is either in the same legend row
    and starts at least one slot width plus the horizontal spacing further
    right, or it is in a later row, which starts at least one cell size plus
    the vertical spacing further down. *)
Theorem legend_slots_do_not_overlap (cellSize margin : Qc)
        (rows cols n i j : Z) :
  0 < cellSize -> (0 <= i < j)%Z -> (j < n)%Z ->
  (statRow cellSize cols i = statRow cellSize cols j /\
   statLeft cellSize margin cols n i + statItemWidth cellSize + of_Z 20
     <= statLeft cellSize margin cols n j) \/
  ((statRow cellSize cols i < statRow cellSize cols j)%Z /\
   statTop cellSize margin rows cols i + cellSize + of_Z 20
     <= statTop cellSize margin rows cols j).
Proof.
  intros Hs Hij Hj. exact (@legend_apart cellSize margin rows cols n Hs i j Hij Hj).
Qed.

Lemma legend_slots_do_not_overlap_witness :
  (0 : Qc) < of_Z 40 /\ (0 <= 1 < 2)%Z /\ (2 < 5)%Z /\
  ((statRow (of_Z 40 : Qc) 29 1 = statRow (of_Z 40 : Qc) 29 2 /\
    statLeft (of_Z 40 : Qc) (of_Z 60) 29 5 1
      + statItemWidth (of_Z 40 : Qc) + of_Z 20
      <= statLeft (of_Z 40 : Qc) (of_Z 60) 29 5 2) \/
   ((statRow (of_Z 40 : Qc) 29 1 < statRow (of_Z 40 : Qc) 29 2)%Z /\
    statTop (of_Z 40 : Qc) (of_Z 60) 29 29 1 + of_Z 40 + of_Z 20
      <= statTop (of_Z 40 : Qc) (of_Z 60) 29 29 2)).
Proof.
  assert (H0 : (0 : Qc) < of_Z 40) by reflexivity.
  assert (H1 : (0 <= 1 < 2)%Z) by lia.
  assert (H2 : (2 < 5)%Z) by lia.
  split; [exact H0 |]. split; [exact H1 |]. split; [exact H2 |].
  exact (@legend_slots_do_not_overlap (of_Z 40) (of_Z 60) 29 29 5 1 2 H0 H1 H2).
Defined.

(** ** Brightness in bytes *)

Lemma slider_clamp_table :
  Forall (fun v =>
    Forall (fun b =>
      clamp255 (N := IEEE.double) (add (of_Z v) (bOffset (of_Z b)))
      = of_Z (Z.min 255 (Z.max 0 (v + 15 * b))))
      (zrange (-2) 3))
    (zrange 0 256).
Proof.
  let l := eval vm_compute in (zrange 0 256) in
  change (zrange 0 256) with l.
  let l := eval vm_compute in (zrange (-2) 3) in
  change (zrange (-2) 3) with l.
  repeat (apply Forall_cons;
          [repeat (apply Forall_cons; [vm_compute; reflexivity |]);
           apply Forall_nil |]).
  apply Forall_nil.
Qed.

Lemma clamp255_of_Z (z : Z) :
  clamp255 (of_Z z : Qc) = of_Z (Z.min 255 (Z.max 0 z)).
Proof.
  unfold clamp255. cbn [minn maxn Exact.rational].
  unfold Exact.Qcmin', Exact.Qcmax'.
  destruct (Exact.Qcltb (of_Z 0) (of_Z z)) eqn:E0.
  - apply Qcltb_lt in E0. apply (proj1 (of_Z_lt_iff _ _)) in E0.
    destruct (Exact.Qcltb (of_Z z) (of_Z 255)) eqn:E1.
    + apply Qcltb_lt in E1. apply (proj1 (of_Z_lt_iff _ _)) in E1.
      replace (Z.min 255 (Z.max 0 z)) with z by lia. reflexivity.
    + apply Qcltb_ge in E1. apply (proj1 (of_Z_le_iff _ _)) in E1.
      replace (Z.min 255 (Z.max 0 z)) with 255%Z by lia. reflexivity.
  - apply Qcltb_ge in E0. apply (proj1 (of_Z_le_iff _ _)) in E0.
    replace (Z.min 255 (Z.max 0 z)) with 0%Z by lia. reflexivity.
Qed.

Lemma slider_clamp_exact (v b : Z) :
  clamp255 (N := Exact.rational) (add (of_Z v) (bOffset (of_Z b)))
  = of_Z (Z.min 255 (Z.max 0 (v + 15 * b))).
Proof.
  rewrite <- clamp255_of_Z. unfold bOffset.
  cbn [add mul Exact.rational].
  rewrite <- of_Z_mul, <- of_Z_add.
  replace (v + b * 15)%Z with (v + 15 * b)%Z by lia. reflexivity.
Qed.

Lemma slider_clamp_double (v b : Z) :
  is_byte v -> (-2 <= b <= 2)%Z ->
  clamp255 (N := IEEE.double) (add (of_Z v) (bOffset (of_Z b)))
  = of_Z (Z.min 255 (Z.max 0 (v + 15 * b))).
Proof.
  intros Hv Hb. pose proof slider_clamp_table as H.
  rewrite Forall_forall in H.
  assert (Iv : In v (zrange 0 256)) by (apply in_zrange; unfold is_byte in Hv; lia).
  specialize (H v Iv). cbn beta in H. rewrite Forall_forall in H.
  apply (H b). apply in_zrange. lia.
Qed.

Lemma nth_is_byte (data : list Z) (i : nat) :
  Forall is_byte data -> is_byte (nth i data 0%Z).
Proof.
  intros H. destruct (Nat.lt_ge_cases i (List.length data)) as [L | L].
  - rewrite Forall_forall in H. apply H, nth_In, L.
  - rewrite nth_overflow by exact L. unfold is_byte. lia.
Qed.

(** X12: Nearest sampling with the brightness slider works in bytes.  For a
    canvas read-back of [targetW x targetH] pixels, a cell inside the grid
    and a whole brightness between -2 and 2 (the slider's range and step):
    the three bytes the cell reads are inside the buffer, and the value
    handed to the palette search, computed in binary64 as in the browser, is
    the whole number [min 255 (max 0 (byte + 15 * brightness))] on each
    channel, the same as in exact arithmetic; with brightness 0 it is the
    pixel itself. *)
Theorem nearest_sampling_in_bytes (imageData : list Z)
        (targetW targetH r c b : Z) :
  Forall is_byte imageData ->
  Z.of_nat (List.length imageData) = (4 * (targetW * targetH))%Z ->
  (0 <= r < targetH)%Z -> (0 <= c < targetW)%Z -> (-2 <= b <= 2)%Z ->
  let idx := ((r * targetW + c) * 4)%Z in
  let byte k := nth (Z.to_nat (idx + k)) imageData 0%Z in
  let px k := Z.min 255 (Z.max 0 (byte k + 15 * b)) in
  (0 <= idx)%Z /\ (idx + 3 < Z.of_nat (List.length imageData))%Z /\
  nearest_cell (N := IEEE.double) imageData targetW (bOffset (of_Z b)) r c
  = mkRaw (of_Z (px 0%Z)) (of_Z (px 1%Z)) (of_Z (px 2%Z)) /\
  nearest_cell (N := Exact.rational) imageData targetW (bOffset (of_Z b)) r c
  = mkRaw (of_Z (px 0%Z)) (of_Z (px 1%Z)) (of_Z (px 2%Z)) /\
  (b = 0%Z ->
   nearest_cell (N := IEEE.double) imageData targetW (bOffset (of_Z b)) r c
   = mkRaw (of_Z (byte 0%Z)) (of_Z (byte 1%Z)) (of_Z (byte 2%Z))).
Proof.
  intros Hd Hlen Hr Hc Hb idx byte px.
  assert (D : nearest_cell (N := IEEE.double) imageData targetW
                (bOffset (of_Z b)) r c
              = mkRaw (of_Z (px 0%Z)) (of_Z (px 1%Z)) (of_Z (px 2%Z))).
  { unfold nearest_cell, dataAt. fold idx.
    rewrite <- (Z.add_0_r idx) at 1.
    rewrite !slider_clamp_double by (try apply nth_is_byte; assumption).
    reflexivity. }
  split; [subst idx; nia |]. split; [subst idx; nia |].
  split; [exact D |]. split.
  - unfold nearest_cell, dataAt. fold idx.
    rewrite <- (Z.add_0_r idx) at 1.
    rewrite !slider_clamp_exact. reflexivity.
  - intros ->. rewrite D. unfold px.
    assert (K : forall k, Z.min 255 (Z.max 0 (byte k + 15 * 0)) = byte k).
    { intros k. pose proof (@nth_is_byte imageData (Z.to_nat (idx + k)) Hd) as B.
      fold (byte k) in B. unfold is_byte in B. lia. }
    rewrite !K. reflexivity.
Qed.

Lemma nearest_sampling_in_bytes_witness :
  Forall is_byte [200; 100; 0; 255]%Z /\
  nearest_cell (N := IEEE.double) [200; 100; 0; 255]%Z 1 (bOffset (of_Z 2)) 0 0
  = mkRaw (of_Z 230) (of_Z 130) (of_Z 30).
Proof.
  assert (Hd : Forall is_byte [200; 100; 0; 255]%Z)
    by (repeat constructor; unfold is_byte; lia).
  split; [exact Hd |].
  refine (proj1 (proj2 (proj2
    (@nearest_sampling_in_bytes [200; 100; 0; 255]%Z 1 1 0 0 2 Hd _ _ _ _)))).
  - reflexivity.
  - lia.
  - lia.
  - lia.
Defined.

(** ** What the average sampler reads *)

Lemma fold_left_agree {A B : Type} (f g : A -> B -> A) (l : list B) (a : A) :
  (forall acc x, In x l -> f acc x = g acc x) ->
  fold_left f l a = fold_left g l a.
Proof.
  revert a. induction l as [| x l IH]; intros a H; [reflexivity |].
  cbn [fold_left]. rewrite (H a x) by (left; reflexivity).
  apply IH. intros acc y Hy. apply H. right. exact Hy.
Qed.

(** X13: The average sampler never looks outside the pixel buffer, nor at
    the alpha bytes.  In exact arithmetic, for positive target sizes and a
    cell with non-negative row and column: two buffers that hold the same
    red, green and blue bytes at the indices below [4 * cw * ch] give the
    same raw colour for the cell, whatever they hold elsewhere. *)
Theorem average_reads_only_colour_bytes_of_buffer
        (cw ch targetW targetH r c : Z) (data1 data2 : list Z) (bOff : Qc) :
  (0 < targetW)%Z -> (0 < targetH)%Z -> (0 <= r)%Z -> (0 <= c)%Z ->
  (0 <= cw)%Z -> (0 <= ch)%Z ->
  (forall i, (0 <= i < 4 * (cw * ch))%Z -> (i mod 4 <> 3)%Z ->
             nth (Z.to_nat i) data1 0%Z = nth (Z.to_nat i) data2 0%Z) ->
  average_cell cw ch targetW targetH data1 bOff r c
  = average_cell cw ch targetW targetH data2 bOff r c.
Proof.
  intros HW HH Hr Hc Hcw Hch Hsame.
  assert (E : block_sums cw ch targetW targetH data1 bOff r c
              = block_sums cw ch targetW targetH data2 bOff r c).
  { unfold block_sums, for_range.
    destruct (block_start_end HW Hc Hcw) as [X0 X1].
    destruct (block_start_end HH Hr Hch) as [Y0 Y1].
    change (startX ch targetH r)
      with (startY (N := Exact.rational) ch targetH r) in *.
    change (endX ch targetH r)
      with (endY (N := Exact.rational) ch targetH r) in *.
    apply fold_left_agree. intros acc y Hy. apply in_zrange in Hy.
    apply fold_left_agree. intros acc' x Hx. apply in_zrange in Hx.
    unfold add_pixel, dataAt.
    rewrite !(Hsame ((y * cw + x) * 4)%Z),
            !(Hsame ((y * cw + x) * 4 + 1)%Z),
            !(Hsame ((y * cw + x) * 4 + 2)%Z);
      try reflexivity;
      try (rewrite Z.add_comm, Z.mod_add by lia; cbn; lia);
      try (rewrite Z.mod_mul by lia; lia);
      nia. }
  unfold average_cell. rewrite E. reflexivity.
Qed.

Lemma average_reads_only_colour_bytes_of_buffer_witness :
  average_cell (N := Exact.rational) 2 1 1 1
    [10; 20; 30; 255; 50; 60; 70; 255]%Z (of_Z 0) 0 0
  = average_cell (N := Exact.rational) 2 1 1 1
    [10; 20; 30; 0; 50; 60; 70; 128; 1; 2; 3]%Z (of_Z 0) 0 0.
Proof.
  refine (@average_reads_only_colour_bytes_of_buffer 2 1 1 1 0 0
            [10; 20; 30; 255; 50; 60; 70; 255]%Z
            [10; 20; 30; 0; 50; 60; 70; 128; 1; 2; 3]%Z (of_Z 0)
            _ _ _ _ _ _ _); try lia.
  intros i Hi Hm.
  assert (C : (i = 0 \/ i = 1 \/ i = 2 \/ i = 3 \/ i = 4 \/ i = 5 \/ i = 6
               \/ i = 7)%Z) by lia.
  destruct C as [-> | [-> | [-> | [-> | [-> | [-> | [-> | ->]]]]]]];
    try reflexivity; exfalso; apply Hm; reflexivity.
Defined.

(** ** From the crop to the blocks *)

Lemma floor_of_Z (z : Z) : floorZ (of_Z z : Qc) = z.
Proof.
  cbn [floorZ Exact.rational]. rewrite this_of_Z. apply Qfloor_Z.
Qed.

Lemma floor_div_ratio (a b c : Z) :
  (0 < b)%Z -> (0 < c)%Z ->
  floorZ (div (of_Z a) (div (of_Z b) (of_Z c)) : Qc) = (a * c / b)%Z.
Proof.
  intros Hb Hc. rewrite <- floor_mul_div by exact Hb. f_equal.
  pose proof (of_Z_pos Hb) as Pb. pose proof (of_Z_pos Hc) as Pc.
  cbn [mul div Exact.rational].
  field. split; apply not_eq_sym, Qclt_not_eq; assumption.
Qed.

Lemma crop_canvas_covers_target (imgW imgH targetW targetH : Z) :
  (0 < targetW <= imgW)%Z -> (0 < targetH <= imgH)%Z ->
  let rect := crop (N := Exact.rational) imgW imgH targetW targetH in
  (targetW <= floorZ (cropW rect))%Z /\ (targetH <= floorZ (cropH rect))%Z.
Proof.
  intros HW HH rect. unfold rect, crop.
  destruct (ltb (targetRatio targetW targetH) (imgRatio imgW imgH)).
  - cbn [cropW cropH]. rewrite floor_of_Z. unfold targetRatio.
    rewrite floor_mul_div by lia.
    split; [apply Z.div_le_lower_bound; nia | lia].
  - cbn [cropW cropH]. rewrite floor_of_Z. unfold targetRatio.
    rewrite floor_div_ratio by lia.
    split; [lia | apply Z.div_le_lower_bound; nia].
Qed.

